(** * Vegeta result collection and reporting

    A shallow embedding of [lib/results.go] and [lib/reporters.go].

    [Collect] is a transition system over the program points of its
    goroutines, run by schedules. The reporters return Go's pair of a
    byte payload and an error: [ReportJSON] and [ReportPlot] are
    functions of the results, [ReportText] also of the order in which its
    [range] over the status-code map hands out the entries. What the
    reporters call in Go's libraries is gathered in the class [GoLib];
    [NewMetrics], which metrics.go defines, is modelled from the
    specification.

    The definitions come first, the properties after them. *)

From Stdlib Require Import ZArith String Ascii List Floats.
From stdpp Require Import base numbers list strings gmap pretty sorting.

(** ** [type Result struct] (results.go) *)

(** [Timestamp] is the instant of a [time.Time] in nanoseconds; [Latency]
    is a [time.Duration], a signed 64-bit count of nanoseconds. *)
Record Result := mkResult {
  Code : Z;
  Timestamp : Z;
  Latency : Z;
  BytesOut : N;
  BytesIn : N;
  Error : string
}.

(** [type Results []*Result]; every pointer of the slice points to a
    result, as those [Collect] sends do. *)
Abbreviation Results := (list Result).

(** A Go [error] value, identified with its message. *)
Definition error := string.

(** * The stream collector *)

Module Collector.

(** What one call of [dec.Decode(&r)] yields before the reader is
    exhausted: a decoded record or a decoding failure other than
    [io.EOF]. An [io.Reader] is the list of these outcomes; once the list
    is used up [Decode] returns [io.EOF]. *)
Inductive decoded :=
  | Rec (r : Result)
  | Bad (e : error).

Abbreviation reader := (list decoded).

(** Program points of the goroutine started for one reader. *)
Inductive task :=
  | Decoding (src : reader)                  (* at [dec.Decode(&r)] *)
  | SendingErr (e : error) (src : reader)    (* at [errs <- err] *)
  | SendingRes (r : Result) (src : reader)   (* at [resc <- &r] *)
  | Returned.                                (* after [wg.Done(); return] *)

(** Program points of the goroutine that waits and closes. *)
Inductive closer :=
  | NotSpawned
  | Waiting        (* at [wg.Wait()] *)
  | ClosedResc     (* after [close(resc)] *)
  | ClosedBoth.    (* after [close(errs)] *)

(** What happens on the two channels, as their consumer sees it, and the
    ends of stream the tasks meet. *)
Inductive event :=
  | RecvRes (r : Result)
  | RecvErr (e : error)
  | SawEOF (i : nat)
  | CloseResc
  | CloseErrs.

Record state := mkState {
  pending : list reader;   (* readers the [for i := range in] loop has not reached *)
  tasks : list task;       (* one per goroutine started, in starting order *)
  wg : nat;                (* the [sync.WaitGroup] counter *)
  closing : closer;
  trace : list event
}.

(** The state on entry to [Collect(in...)]. *)
Definition Collect (ins : list reader) : state :=
  mkState ins [] 0 NotSpawned [].

Inductive action :=
  | Main              (* the calling goroutine *)
  | Task (i : nat)    (* the goroutine of reader [i] *)
  | Closer.

Inductive outcome :=
  | Next (s : state)
  | Blocked      (* the goroutine cannot move, or does not exist *)
  | Crash.       (* a run-time panic *)

Definition resc_closed (s : state) : bool :=
  match closing s with ClosedResc | ClosedBoth => true | _ => false end.

Definition errs_closed (s : state) : bool :=
  match closing s with ClosedBoth => true | _ => false end.

Definition set_task (i : nat) (t : task) (s : state) : state :=
  mkState (pending s) (<[i:=t]> (tasks s)) (wg s) (closing s) (trace s).

Definition emit (e : event) (s : state) : state :=
  mkState (pending s) (tasks s) (wg s) (closing s) (trace s ++ [e]).

(** One move of one goroutine. Both channels are unbuffered: a send is
    one move together with the receive of the consumer, which is taken
    to drain both channels. *)
Definition step (a : action) (s : state) : outcome :=
  match a with
  | Main =>
      match pending s with
      | src :: rest =>
          (* wg.Add(1); go func(src io.Reader) {...}(in[i]) *)
          Next (mkState rest (tasks s ++ [Decoding src]) (S (wg s)) (closing s) (trace s))
      | [] =>
          match closing s with
          | NotSpawned =>
              (* go func() { wg.Wait(); ... }() *)
              Next (mkState [] (tasks s) (wg s) Waiting (trace s))
          | _ => Blocked
          end
      end
  | Task i =>
      match tasks s !! i with
      | None | Some Returned => Blocked
      | Some (Decoding []) =>
          (* err == io.EOF: wg.Done(); return *)
          match wg s with
          | O => Crash
          | S n =>
              Next (mkState (pending s) (<[i:=Returned]> (tasks s)) n (closing s)
                      (trace s ++ [SawEOF i]))
          end
      | Some (Decoding (Bad e :: src)) => Next (set_task i (SendingErr e src) s)
      | Some (Decoding (Rec r :: src)) => Next (set_task i (SendingRes r src) s)
      | Some (SendingErr e src) =>
          (* errs <- err; continue *)
          if errs_closed s then Crash
          else Next (emit (RecvErr e) (set_task i (Decoding src) s))
      | Some (SendingRes r src) =>
          (* resc <- &r *)
          if resc_closed s then Crash
          else Next (emit (RecvRes r) (set_task i (Decoding src) s))
      end
  | Closer =>
      match closing s with
      | NotSpawned | ClosedBoth => Blocked
      | Waiting =>
          match wg s with
          | O => Next (mkState (pending s) (tasks s) 0 ClosedResc (trace s ++ [CloseResc]))
          | S _ => Blocked
          end
      | ClosedResc =>
          Next (mkState (pending s) (tasks s) (wg s) ClosedBoth (trace s ++ [CloseErrs]))
      end
  end.

(** A schedule is the list of goroutines that move, in order. *)
Fixpoint run (acts : list action) (s : state) : outcome :=
  match acts with
  | [] => Next s
  | a :: acts' =>
      match step a s with
      | Next s' => run acts' s'
      | o => o
      end
  end.

(** Both channels are closed. *)
Definition finished (s : state) : Prop := closing s = ClosedBoth.

(** ** What a reader holds and what a trace delivered *)

Definition rec_of (d : decoded) : option Result :=
  match d with Rec r => Some r | Bad _ => None end.

Definition err_of (d : decoded) : option error :=
  match d with Bad e => Some e | Rec _ => None end.

Definition records (src : reader) : list Result := omap rec_of src.
Definition failures (src : reader) : list error := omap err_of src.

(** Every record of the reader is well formed: no decode fails. *)
Definition well_formed (src : reader) : Prop := failures src = [].

Definition res_of (e : event) : option Result :=
  match e with RecvRes r => Some r | _ => None end.

Definition fail_of (e : event) : option error :=
  match e with RecvErr x => Some x | _ => None end.

Definition delivered (tr : list event) : list Result := omap res_of tr.
Definition reported (tr : list event) : list error := omap fail_of tr.

(** The decode outcome a channel event hands to the consumer. *)
Definition item_of (e : event) : option decoded :=
  match e with
  | RecvRes r => Some (Rec r)
  | RecvErr x => Some (Bad x)
  | _ => None
  end.

Definition items (tr : list event) : reader := omap item_of tr.

Definition is_close (e : event) : bool :=
  match e with CloseResc | CloseErrs => true | _ => false end.

Definition is_eof (e : event) : bool :=
  match e with SawEOF _ => true | _ => false end.

(** The ends of stream met so far. *)
Definition eofs (tr : list event) : nat := length (filter (λ e, is_eof e = true) tr).

(** What a task has still to deliver: the outcome in flight and the rest
    of its reader. *)
Definition todo (t : task) : reader :=
  match t with
  | Decoding src => src
  | SendingErr e src => Bad e :: src
  | SendingRes r src => Rec r :: src
  | Returned => []
  end.

Definition live (t : task) : nat :=
  match t with Returned => 0 | _ => 1 end.

(** Moves left to a task, to the main goroutine for a reader, and to the
    closer. *)
Definition task_moves (t : task) : nat :=
  match t with
  | Decoding src => 2 * length src + 1
  | SendingErr _ src | SendingRes _ src => 2 * length src + 2
  | Returned => 0
  end.

Definition closer_moves (c : closer) : nat :=
  match c with NotSpawned => 3 | Waiting => 2 | ClosedResc => 1 | ClosedBoth => 0 end.

Definition moves (s : state) : nat :=
  sum_list_with (λ src, 2 * length src + 2) (pending s)
  + sum_list_with task_moves (tasks s)
  + closer_moves (closing s).

(** What holds in every state [Collect ins] can reach. *)
Record inv (ins : list reader) (s : state) : Prop := mkInv {
  inv_wg : wg s = sum_list_with live (tasks s);
  inv_spawn : closing s ≠ NotSpawned → pending s = [];
  inv_closed : resc_closed s = true → wg s = 0;
  inv_items :
    items (trace s) ++ concat (todo <$> tasks s) ++ concat (pending s) ≡ₚ concat ins;
  inv_count : length (tasks s) + length (pending s) = length ins;
  inv_eofs : eofs (trace s) + wg s = length (tasks s);
  inv_trace :
    match closing s with
    | NotSpawned | Waiting => Forall (λ e, is_close e = false) (trace s)
    | ClosedResc =>
        ∃ body, trace s = body ++ [CloseResc] ∧ Forall (λ e, is_close e = false) body
    | ClosedBoth =>
        ∃ body, trace s = body ++ [CloseResc; CloseErrs]
                ∧ Forall (λ e, is_close e = false) body
    end
}.

(** ** Two runs of the model *)

Definition sample_record (c : Z) (t : Z) : Result :=
  mkResult c t 1000 0 10 EmptyString.

(** Two readers of well-formed records. *)
Definition sample_clean : list reader :=
  [ [Rec (sample_record 200 1); Rec (sample_record 200 3)];
    [Rec (sample_record 200 2)] ].

(** The same readers with a record of the first one corrupted. *)
Definition sample_corrupt : list reader :=
  [ [Rec (sample_record 200 1); Bad "gob: bad data"; Rec (sample_record 200 3)];
    [Rec (sample_record 200 2)] ].

(** The first moves of the schedule below: the consumer has drained two
    records and the first task holds a decode error. *)
Definition sample_schedule_partial : list action :=
  [Main; Task 0; Main; Task 1; Task 0; Task 1; Task 0].

(** Schedules that interleave the two tasks: the first task decodes
    before the second is started, and the second reader is exhausted
    first. *)
Definition sample_schedule_clean : list action :=
  [Main; Task 0; Main; Task 1; Task 0; Task 1; Task 0; Task 1; Main;
   Task 0; Task 0; Closer; Closer].

Definition sample_schedule_corrupt : list action :=
  [Main; Task 0; Main; Task 1; Task 0; Task 1; Task 0; Task 1; Main;
   Task 0; Task 0; Task 0; Task 0; Closer; Closer].

(** The state a schedule of [Collect ins] ends in. *)
Definition final_state (acts : list action) (ins : list reader) : state :=
  match run acts (Collect ins) with
  | Next s => s
  | _ => Collect ins
  end.

(** One reader with a corrupt record in the middle, and a schedule of
    it. *)
Definition sample_single : reader :=
  [Rec (sample_record 200 1); Bad "gob: bad data"; Rec (sample_record 200 3)].

Definition sample_schedule_single : list action :=
  [Main; Main; Task 0; Task 0; Task 0; Task 0; Task 0; Task 0; Task 0;
   Closer; Closer].

(** ** Interleavings *)

(** [merges ls out]: the list [out] is an interleaving of the lists [ls],
    each of them kept in its order. *)
Inductive merges {A : Type} : list (list A) → list A → Prop :=
  | merges_nil ls :
      Forall (λ l, l = []) ls → merges ls []
  | merges_snoc ls i l x out :
      ls !! i = Some (l ++ [x]) →
      merges (<[i:=l]> ls) out →
      merges ls (out ++ [x]).

(** What each task has handed over so far is a prefix of its reader, the
    readers not yet reached are untouched, and the channel events are an
    interleaving of those prefixes. *)
Definition ordered (ins : list reader) (s : state) : Prop :=
  ∃ done : list reader,
    length done = length (tasks s)
    ∧ (∀ i t, tasks s !! i = Some t →
         ∃ d, done !! i = Some d ∧ ins !! i = Some (d ++ todo t))
    ∧ (∀ i src, pending s !! i = Some src → ins !! (length (tasks s) + i) = Some src)
    ∧ merges done (items (trace s)).

End Collector.

(** * Metrics and reporters *)

Module Reporters.

Local Open Scope string_scope.

(** The double quote and the tab, which a string literal cannot hold as
    written. *)
Definition dq : string := String "034"%char EmptyString.
Definition tab : string := String "009"%char EmptyString.
Definition nl : string := String "010"%char EmptyString.

(** ** [time] *)

Definition minDuration : Z := - 2 ^ 63.
Definition maxDuration : Z := 2 ^ 63 - 1.
Definition Second : Z := 1000000000.

(** A signed 64-bit sum as Go computes it, wrapping around. *)
Definition wrap64 (z : Z) : Z := (z + 2 ^ 63) `mod` 2 ^ 64 - 2 ^ 63.

(** [t.Sub(u)]: the duration [t - u], or the least or greatest duration
    when the difference does not fit one. *)
Definition Time_Sub (t u : Z) : Z :=
  let d := (t - u)%Z in
  if (d <? minDuration)%Z then minDuration
  else if (maxDuration <? d)%Z then maxDuration
  else d.

(** [float64(z)], rounded to the nearest double. *)
Definition float64_of_Z (z : Z) : float :=
  SF2Prim (binary_normalize prec emax z 0 false).

(** [d.Seconds()]:
    [sec := d / Second; nsec := d % Second;
     return float64(sec) + float64(nsec)/1e9]. *)
Definition Seconds (d : Z) : float :=
  (float64_of_Z (d `quot` Second) + float64_of_Z (d `rem` Second) / 1e9)%float.

(** ** [Metrics]

    The struct is declared in metrics.go; these are the fields the
    reporters read, with the types their format verbs and loops give
    them. *)
Record LatencyMetrics := mkLatencyMetrics {
  Mean : Z;
  P50 : Z;
  P95 : Z;
  P99 : Z;
  Max : Z
}.

Record ByteMetrics := mkByteMetrics {
  Total : N;
  BMean : float
}.

Record Metrics := mkMetrics {
  Requests : N;
  Duration : Z;
  Wait : Z;
  Latencies : LatencyMetrics;
  MBytesIn : ByteMetrics;
  MBytesOut : ByteMetrics;
  Success : float;
  StatusCodes : gmap string Z;
  Errors : list string
}.

(** ** What the reporters take from Go's libraries

    [FormatFloat32 f] is [strconv.FormatFloat(f, 'f', -1, 32)];
    [Duration_String] and [Time_String] are the [String] methods that
    [%s] and the template print with; [Sprintf_2f] is the verb [%.2f];
    [tabwriter_Flush text] is what [w.Flush()] has put into the buffer
    under the tab writer, and the error it returns, once [text] has been
    written to [w]; [json_Marshal] is [json.Marshal] on a [*Metrics];
    [dygraphJSLibSrc] is the bundled charting library. *)
Class GoLib := mkGoLib {
  FormatFloat32 : float → string;
  Duration_String : Z → string;
  Time_String : Z → string;
  Sprintf_2f : float → string;
  tabwriter_Flush : string → string * option error;
  json_Marshal : Metrics → string * option error;
  dygraphJSLibSrc : string
}.

(** ** [NewMetrics] *)

(** The records without an error string. *)
Definition successes (r : Results) : list Result :=
  filter (λ x, Error x = EmptyString) r.

Definition total_latency (r : Results) : Z := foldr (λ x acc, Latency x + acc)%Z 0%Z r.
Definition total_in (r : Results) : N := foldr (λ x acc, BytesIn x + acc)%N 0%N r.
Definition total_out (r : Results) : N := foldr (λ x acc, BytesOut x + acc)%N 0%N r.

Definition sorted_latencies (r : Results) : list Z :=
  merge_sort Z.le (Latency <$> r).

(** Nearest rank: the latency at index [ceil(p * n / 100) - 1] of the
    sorted latencies, kept inside the list. *)
Definition percentile (p : nat) (lat : list Z) : Z :=
  let n := length lat in
  let rank := (p * n + 99) `div` 100 - 1 in
  default 0%Z (lat !! (rank `min` (n - 1))).

(** The histogram: the decimal form of each status code to its number of
    occurrences. *)
Definition count_code (x : Result) (m : gmap string Z) : gmap string Z :=
  <[pretty (Code x) := (default 0 (m !! pretty (Code x)) + 1)%Z]> m.

Definition histogram (r : Results) : gmap string Z := foldr count_code ∅ r.

(** The distinct error strings that are not empty. *)
Definition error_set (r : Results) : list string :=
  remove_dups (filter (λ e, e ≠ EmptyString) (Error <$> r)).

(** Modelled from the spec: [NewMetrics] is in metrics.go, which is not
    among the sources. Counts, totals and the histogram are taken over
    all records; the span is from the first to the last timestamp and the
    wait is the last latency; a mean is a total over the count and the
    success ratio the successes over the count, each zero on an empty
    collection. *)
Definition NewMetrics (r : Results) : Metrics :=
  let n := Z.of_nat (length r) in
  let lat := sorted_latencies r in
  let ratio (x : Z) : float :=
    if (n =? 0)%Z then 0%float else (float64_of_Z x / float64_of_Z n)%float in
  {| Requests := N.of_nat (length r);
     Duration :=
       match r, last r with
       | first :: _, Some final => Time_Sub (Timestamp final) (Timestamp first)
       | _, _ => 0
       end;
     Wait := from_option Latency 0%Z (last r);
     Latencies :=
       {| Mean := if (n =? 0)%Z then 0 else (total_latency r `quot` n)%Z;
          P50 := percentile 50 lat;
          P95 := percentile 95 lat;
          P99 := percentile 99 lat;
          Max := default 0%Z (last lat) |};
     MBytesIn := {| Total := total_in r; BMean := ratio (Z.of_N (total_in r)) |};
     MBytesOut := {| Total := total_out r; BMean := ratio (Z.of_N (total_out r)) |};
     Success := ratio (Z.of_nat (length (successes r)));
     StatusCodes := histogram r;
     Errors := error_set r |}.

(** ** [ReportText] *)

(** The text one pass of [for code, count := range m.StatusCodes] writes
    when the map hands out its entries in the order [kvs]. *)
Definition status_codes_text (kvs : list (string * Z)) : string :=
  foldr (λ kv acc, kv.1 +:+ ":" +:+ pretty kv.2 +:+ "  " +:+ acc) EmptyString kvs.

(** Go leaves the order of a [range] over a map open: any order of the
    entries is one the loop may see. *)
Definition map_range (m : gmap string Z) (kvs : list (string * Z)) : Prop :=
  kvs ≡ₚ map_to_list m.

Definition error_set_text (errs : list string) : string :=
  foldr (λ e acc, e +:+ nl +:+ acc) EmptyString errs.

(** Everything written to the tab writer [w] before [w.Flush()]. *)
Definition text_written `{GoLib} (kvs : list (string * Z)) (m : Metrics) : string :=
  "Requests" +:+ tab +:+ "[total]" +:+ tab +:+ pretty (Requests m) +:+ nl
  +:+ "Duration" +:+ tab +:+ "[total, attack, wait]" +:+ tab
      +:+ Duration_String (wrap64 (Duration m + Wait m)) +:+ ", "
      +:+ Duration_String (Duration m) +:+ ", " +:+ Duration_String (Wait m) +:+ nl
  +:+ "Latencies" +:+ tab +:+ "[mean, 50, 95, 99, max]" +:+ tab
      +:+ Duration_String (Mean (Latencies m)) +:+ ", "
      +:+ Duration_String (P50 (Latencies m)) +:+ ", "
      +:+ Duration_String (P95 (Latencies m)) +:+ ", "
      +:+ Duration_String (P99 (Latencies m)) +:+ ", "
      +:+ Duration_String (Max (Latencies m)) +:+ nl
  +:+ "Bytes In" +:+ tab +:+ "[total, mean]" +:+ tab
      +:+ pretty (Total (MBytesIn m)) +:+ ", " +:+ Sprintf_2f (BMean (MBytesIn m)) +:+ nl
  +:+ "Bytes Out" +:+ tab +:+ "[total, mean]" +:+ tab
      +:+ pretty (Total (MBytesOut m)) +:+ ", " +:+ Sprintf_2f (BMean (MBytesOut m)) +:+ nl
  +:+ "Success" +:+ tab +:+ "[ratio]" +:+ tab
      +:+ Sprintf_2f (Success m * 100)%float +:+ "%" +:+ nl
  +:+ "Status Codes" +:+ tab +:+ "[code:count]" +:+ tab
  +:+ status_codes_text kvs
  +:+ nl +:+ "Error Set:" +:+ nl
  +:+ error_set_text (Errors m).

(** The two values a reporter returns: the payload (a nil slice and an
    empty one are both the empty string) and the error, if any. *)
Definition report := (string * option error)%type.

(** One run of [ReportText], with the order [kvs] its [range] saw. *)
Definition ReportText_run `{GoLib} (kvs : list (string * Z)) (r : Results) : report :=
  let m := NewMetrics r in
  match tabwriter_Flush (text_written kvs m) with
  | (_, Some err) => (EmptyString, Some err)    (* return []byte{}, err *)
  | (out, None) => (out, None)                  (* return out.Bytes(), nil *)
  end.

(** What [ReportText r] may return. *)
Definition ReportText `{GoLib} (r : Results) (res : report) : Prop :=
  ∃ kvs, map_range (StatusCodes (NewMetrics r)) kvs ∧ res = ReportText_run kvs r.

(** ** [ReportJSON] *)

Definition ReportJSON `{GoLib} (r : Results) : report :=
  json_Marshal (NewMetrics r).

(** ** [ReportPlot] *)

(** The x coordinate of a record: the seconds from the first record's
    timestamp to its own. *)
Definition elapsed (r0 ri : Result) : float :=
  Seconds (Time_Sub (Timestamp ri) (Timestamp r0)).

(** [r[i].Latency.Seconds()*1000]. *)
Definition millis (ri : Result) : float := (Seconds (Latency ri) * 1000)%float.

(** The value of [point] after one pass of the loop body, for [r[0]] and
    [r[i]]. *)
Definition point `{GoLib} (r0 ri : Result) : string :=
  let point := "[" +:+ FormatFloat32 (elapsed r0 ri) +:+ "," in
  if decide (Error ri = EmptyString)
  then point +:+ "NaN," +:+ FormatFloat32 (millis ri) +:+ "],"
  else point +:+ FormatFloat32 (millis ri) +:+ ",NaN],".

(** [for i := 0; i < len(r); i++ {...}], with [n] passes to go from index
    [i]; [None] is the panic of an index out of range. *)
Fixpoint plot_loop `{GoLib} (r : Results) (i n : nat) (series : string) : option string :=
  match n with
  | O => Some series
  | S n' =>
      ri ← r !! i;
      r0 ← r !! 0;
      plot_loop r (S i) n' (series +:+ point r0 ri)
  end.

(** [series.Truncate(n)]. *)
Definition Truncate (series : string) (n : nat) : string := substring 0 n series.

(** The [Series] field of the template's context. *)
Definition plot_series `{GoLib} (r : Results) : option string :=
  series ← plot_loop r 0 (length r) EmptyString;
  Some (if (0 <? String.length series)%nat
        then Truncate series (String.length series - 1)
        else series).

(** ** [text/template], as far as [plotsTemplate] uses it *)

(** The values fields evaluate to: the context struct, the slice of
    results, one result and the types of its fields. *)
Inductive value :=
  | VString (s : string)
  | VInt (z : Z)
  | VUint (n : N)
  | VTime (t : Z)
  | VDuration (d : Z)
  | VResult (x : Result)
  | VResults (r : Results)
  | VCtx (JsSrc Series : string) (r : Results).

(** The parse tree: text, a chain of fields [{{.A.B}}], [{{if eq .A k}}]
    with its two branches, and [{{range .A}}] with its body and its
    [{{else}}] branch. *)
#[warnings="-register-all"]
Inductive node :=
  | TextNode (text : string)
  | FieldNode (chain : list string)
  | IfEqNode (chain : list string) (k : Z) (thn els : list node)
  | RangeNode (chain : list string) (body els : list node).

(** A field of a struct by its name; [None] when the struct has no such
    field, or the value is no struct. The fields of a result are those
    results.go declares. *)
Definition eval_field (name : string) (dot : value) : option value :=
  match dot with
  | VCtx js series r =>
      if decide (name = "JsSrc") then Some (VString js)
      else if decide (name = "Series") then Some (VString series)
      else if decide (name = "Results") then Some (VResults r)
      else None
  | VResult x =>
      if decide (name = "Code") then Some (VInt (Code x))
      else if decide (name = "Timestamp") then Some (VTime (Timestamp x))
      else if decide (name = "Latency") then Some (VDuration (Latency x))
      else if decide (name = "BytesOut") then Some (VUint (BytesOut x))
      else if decide (name = "BytesIn") then Some (VUint (BytesIn x))
      else if decide (name = "Error") then Some (VString (Error x))
      else None
  | _ => None
  end.

Definition cant_evaluate (name : string) : error :=
  "can't evaluate field " +:+ name.

Fixpoint eval_chain (chain : list string) (dot : value) : value + error :=
  match chain with
  | [] => inl dot
  | name :: chain' =>
      match eval_field name dot with
      | Some v => eval_chain chain' v
      | None => inr (cant_evaluate name)
      end
  end.

(** What printing a value writes. The template prints no struct and no
    slice. *)
Definition print_value `{GoLib} (v : value) : string + error :=
  match v with
  | VString s => inl s
  | VInt z => inl (pretty z)
  | VUint n => inl (pretty n)
  | VTime t => inl (Time_String t)
  | VDuration d => inl (Duration_String d)
  | _ => inr "value not printed by this template"
  end.

(** The bytes written so far and the error that stopped the execution, if
    any. *)
Definition written := (string * option error)%type.

Definition and_then (a b : written) : written :=
  match a with
  | (s, None) => (s +:+ b.1, b.2)
  | (s, Some err) => (s, Some err)
  end.

Section Execute.
Context `{GoLib}.

Fixpoint exec_node (n : node) (dot : value) {struct n} : written :=
  let exec_nodes :=
    fix exec_nodes (ns : list node) (dot : value) {struct ns} : written :=
      match ns with
      | [] => (EmptyString, None)
      | n' :: ns' => and_then (exec_node n' dot) (exec_nodes ns' dot)
      end in
  match n with
  | TextNode text => (text, None)
  | FieldNode chain =>
      match eval_chain chain dot with
      | inl v =>
          match print_value v with
          | inl s => (s, None)
          | inr err => (EmptyString, Some err)
          end
      | inr err => (EmptyString, Some err)
      end
  | IfEqNode chain k thn els =>
      match eval_chain chain dot with
      | inl (VInt z) => if (z =? k)%Z then exec_nodes thn dot else exec_nodes els dot
      | inl _ => (EmptyString, Some "error calling eq: incompatible types for comparison")
      | inr err => (EmptyString, Some err)
      end
  | RangeNode chain body els =>
      match eval_chain chain dot with
      | inl (VResults []) => exec_nodes els dot
      | inl (VResults r) =>
          (fix each (r : Results) : written :=
             match r with
             | [] => (EmptyString, None)
             | x :: r' => and_then (exec_nodes body (VResult x)) (each r')
             end) r
      | inl _ => (EmptyString, Some "range can't iterate over value")
      | inr err => (EmptyString, Some err)
      end
  end.

(** [t.Execute(&out, ctx)]: what has been written to [out], and the
    error. *)
Fixpoint Execute (t : list node) (dot : value) : written :=
  match t with
  | [] => (EmptyString, None)
  | n :: t' => and_then (exec_node n dot) (Execute t' dot)
  end.

End Execute.

(** ** [plotsTemplate] *)

(** The branch of a row that picks its colour:
    [{{ if eq .Code 200 }} #8AE234 {{else}} #FA7878 {{end}}]. *)
Definition success_colour : string := " #8AE234 ".
Definition failure_colour : string := " #FA7878 ".

Definition row_colour : node :=
  IfEqNode ["Code"] 200 [TextNode success_colour] [TextNode failure_colour].

(** The row of the table written for no results. *)
Definition no_results_row : string := "<tr><b>No Results found</b></tr>".

Definition page_head : string :=
  "<!doctype>
<html>
<head>
  <title>Vegeta Plots</title>
</head>
<body>
  <div id=" +:+ dq +:+ "latencies" +:+ dq +:+ " style=" +:+ dq +:+ "font-family: Courier; width: 100%%; height: 600px" +:+ dq +:+ "></div>
  <a href=" +:+ dq +:+ "#" +:+ dq +:+ " download=" +:+ dq +:+ "vegetaplot.png" +:+ dq +:+ " onclick=" +:+ dq +:+ "this.href = document.getElementsByTagName('canvas')[0].toDataURL('image/png').replace(/^data:image\/[^;]/, 'data:application/octet-stream')" +:+ dq +:+ ">Download as PNG</a>
  <script>
" +:+ tab.

Definition chart_open : string :=
  "
  </script>
  <script>
  var g = new Dygraph(
    document.getElementById(" +:+ dq +:+ "latencies" +:+ dq +:+ "),
    [".

Definition chart_options_and_table_head : string :=
  "],
    {
      title: 'Vegeta Plot',
      labels: ['Seconds', 'ERR', 'OK'],
      ylabel: 'Latency (ms)',
      xlabel: 'Seconds elapsed',
      showRoller: true,
      colors: ['#FA7878', '#8AE234'],
      legend: 'always',
      logscale: true,
      strokeWidth: 1.3,
      showRangeSelector: true,
      rangeSelectorHeight: 30,
      zoomCallback: function(minX, maxX, yRanges) {
        var table = document.getElementsByTagName('table')[0];
        filterTable(" +:+ dq +:+ "flash" +:+ dq +:+ ", table)
      }
    }
  );

  g.ready(function() {
    console.log(" +:+ dq +:+ "Data loaded. x-axis range is:" +:+ dq +:+ ", g.xAxisRange());
  });

  function filterTable(term, table) {

    var terms = term.toLowerCase().split(" +:+ dq +:+ " " +:+ dq +:+ ");
    for (var r = 1; r < table.rows.length; r++) {
      var display = '';
      for (var i = 0; i < terms.length; i++) {
        if (table.rows[r].innerHTML.replace(/<[^>]+>/g, " +:+ dq +:+ dq +:+ ").toLowerCase().indexOf(terms[i]) < 0) {
          display = 'none';
        }
        table.rows[r].style.display = display;
      }
    }
  }

  </script>
</body>
<table style=" +:+ dq +:+ "text:align-center" +:+ dq +:+ ">
  <tr>
    <th>Timestamp</th>
    <th>Return Code</th>
    <th>Method </th>
    <th>URL </th>
    <th>In (bytes)</th>
    <th>Out (bytes)</th>
  </tr>
  ".

Definition before_timestamp : string :=
  dq +:+ " >
    <td align=" +:+ dq +:+ "center" +:+ dq +:+ " valign=" +:+ dq +:+ "middle" +:+ dq +:+ ">".

Definition before_code : string :=
  "</td>
    <td align=" +:+ dq +:+ "center" +:+ dq +:+ " valign=" +:+ dq +:+ "middle" +:+ dq +:+ ">".

Definition before_method : string :=
  "</td>
    <td align=" +:+ dq +:+ "center" +:+ dq +:+ " valign=" +:+ dq +:+ "middle" +:+ dq +:+ ">".

Definition before_url : string :=
  "</td>
    <td align=" +:+ dq +:+ "left" +:+ dq +:+ " valign=" +:+ dq +:+ "middle" +:+ dq +:+ "><a href=" +:+ dq.

Definition before_bytes_in : string :=
  "</a></td>
    <td align=" +:+ dq +:+ "center" +:+ dq +:+ " valign=" +:+ dq +:+ "middle" +:+ dq +:+ ">".

Definition before_bytes_out : string :=
  "</td>
    <td align=" +:+ dq +:+ "center" +:+ dq +:+ " valign=" +:+ dq +:+ "middle" +:+ dq +:+ ">".

(** The body of [{{range .Results}}]: one row of the table. *)
Definition row_template : list node :=
  [TextNode ("
    <tr bgcolor=" +:+ dq);
   row_colour;
   TextNode before_timestamp;
   FieldNode ["Timestamp"];
   TextNode before_code;
   FieldNode ["Code"];
   TextNode before_method;
   FieldNode ["Request"; "Method"];
   TextNode before_url;
   FieldNode ["Request"; "URL"];
   TextNode (dq +:+ ">");
   FieldNode ["Request"; "URL"];
   TextNode before_bytes_in;
   FieldNode ["BytesIn"];
   TextNode before_bytes_out;
   FieldNode ["BytesOut"];
   TextNode ("</td>
    </tr>
  ")].

(** Its [{{ else }}] branch. *)
Definition empty_template : list node :=
  [TextNode ("
   " +:+ no_results_row +:+ "
  ")].

Definition page_tail : string :=
  "
  </table>
</html>".

(** The parse tree of the template text. *)
Definition plotsTemplate : list node :=
  [TextNode page_head;
    FieldNode ["JsSrc"];
    TextNode chart_open;
    FieldNode ["Series"];
    TextNode chart_options_and_table_head;
    RangeNode ["Results"] row_template empty_template;
    TextNode page_tail].

Definition ReportPlot `{GoLib} (r : Results) : option report :=
  series ← plot_series r;
  let ctx := VCtx dygraphJSLibSrc series r in
  Some match Execute plotsTemplate ctx with
       | (_, Some err) => (EmptyString, Some err)    (* return nil, err *)
       | (out, None) => (out, None)                  (* return out.Bytes(), nil *)
       end.

(** ** A library to run the reporters with

    Floats are printed by their exact decimal expansion, durations and
    instants as their count of nanoseconds; the tab writer passes the text
    through; the marshaller writes the request count alone and refuses a
    ratio that is not a number. *)

Definition pad_zeros (width : nat) (digits : string) : string :=
  string_of_list_ascii (replicate (width - String.length digits) "0"%char) +:+ digits.

Fixpoint strip_zeros (digits : string) : string :=
  match digits with
  | EmptyString => EmptyString
  | String c rest =>
      match strip_zeros rest with
      | EmptyString => if decide (c = "0"%char) then EmptyString else String c EmptyString
      | kept => String c kept
      end
  end.

Definition sample_format (f : float) : string :=
  match Prim2SF f with
  | S754_zero _ => "0"
  | S754_infinity false => "+Inf"
  | S754_infinity true => "-Inf"
  | S754_nan => "NaN"
  | S754_finite s m e =>
      let sign := if s then "-" else EmptyString in
      if (0 <=? e)%Z then sign +:+ pretty (Z.pos m * 2 ^ e)%Z
      else
        let k := (- e)%Z in
        let whole := (Z.pos m `div` 2 ^ k)%Z in
        let frac := ((Z.pos m `mod` 2 ^ k) * 5 ^ k)%Z in
        if (frac =? 0)%Z then sign +:+ pretty whole
        else sign +:+ pretty whole +:+ "."
             +:+ strip_zeros (pad_zeros (Z.to_nat k) (pretty frac))
  end.

Definition sample_marshal (m : Metrics) : report :=
  if (Success m =? Success m)%float
  then ("{requests:" +:+ pretty (Requests m) +:+ "}", None)
  else (EmptyString, Some "json: unsupported value: NaN").

Definition sample_lib : GoLib :=
  {| FormatFloat32 := sample_format;
     Duration_String := λ d, pretty d +:+ "ns";
     Time_String := pretty;
     Sprintf_2f := sample_format;
     tabwriter_Flush := λ text, (text, None);
     json_Marshal := sample_marshal;
     dygraphJSLibSrc := "/* dygraph */" |}.

(** The same library over a buffer that takes no more than ten bytes. *)
Definition short_write_lib : GoLib :=
  {| FormatFloat32 := sample_format;
     Duration_String := λ d, pretty d +:+ "ns";
     Time_String := pretty;
     Sprintf_2f := sample_format;
     tabwriter_Flush := λ text, (substring 0 10 text, Some "short write");
     json_Marshal := sample_marshal;
     dygraphJSLibSrc := "/* dygraph */" |}.

Definition ok_at (t : Z) (code : Z) : Result :=
  mkResult code t 1500000 0 10 EmptyString.

Definition failed_at (t : Z) (code : Z) : Result :=
  mkResult code t 2000000 0 0 "connection refused".

(** Three results in the order they arrived, the last one older than the
    first. *)
Definition sample_results : Results :=
  [ok_at 2000000000 200; failed_at 3000000000 500; ok_at 1000000000 200].

(** Two results with different status codes. *)
Definition two_codes : Results := [ok_at 1000000000 200; failed_at 2000000000 500].


(** ** Reading a point back *)

Fixpoint has_char (c : ascii) (s : string) : bool :=
  match s with
  | EmptyString => false
  | String c' s' => if decide (c' = c) then true else has_char c s'
  end.

(** The fields of [s] between the separators [sep]. *)
Fixpoint split_on (sep : ascii) (s : string) : list string :=
  match s with
  | EmptyString => [EmptyString]
  | String c s' =>
      if decide (c = sep) then EmptyString :: split_on sep s'
      else match split_on sep s' with
           | field :: fields => String c field :: fields
           | [] => [String c EmptyString]
           end
  end.

(** [s] without the closing bracket it ends with. *)
Fixpoint unbracket (s : string) : option string :=
  match s with
  | EmptyString => None
  | String c EmptyString => if decide (c = "]"%char) then Some EmptyString else None
  | String c s' => String c <$> unbracket s'
  end.

(** The three slots of a point [[x,err,ok],]: the x coordinate, the
    latency of a failure and the latency of a success. *)
Definition slots_of_point (p : string) : option (string * string * string) :=
  match p with
  | String c body =>
      if decide (c = "["%char) then
        match split_on ","%char body with
        | [x; err; ok; EmptyString] => ok' ← unbracket ok; Some (x, err, ok')
        | _ => None
        end
      else None
  | EmptyString => None
  end.

(** The marker of a missing value. *)
Definition NaN : string := "NaN".

(** The strings of a list, one after the other. *)
Definition flat (l : list string) : string := foldr String.append EmptyString l.

Definition set_code (c : Z) (x : Result) : Result :=
  mkResult c (Timestamp x) (Latency x) (BytesOut x) (BytesIn x) (Error x).


(** A reporter returns all of [complete] or, with an error, nothing. *)
Definition all_or_nothing (res : report) (complete : string) : Prop :=
  match res with
  | (payload, Some _) => payload = EmptyString
  | (payload, None) => payload = complete
  end.

(** Two results with the same status code. *)
Definition one_code : Results := [ok_at 1000000000 200; ok_at 2000000000 200].

(** ** Reading a series back *)

(** [s] without the opening bracket it starts with. *)
Definition unopen (s : string) : option string :=
  match s with
  | String c s' => if decide (c = "["%char) then Some s' else None
  | EmptyString => None
  end.

(** The triples of a list of fields, three fields each. *)
Fixpoint triples (fields : list string) : option (list (string * string * string)) :=
  match fields with
  | [] => Some []
  | first :: err :: last :: fields' =>
      x ← unopen first;
      ok ← unbracket last;
      rest ← triples fields';
      Some ((x, err, ok) :: rest)
  | _ => None
  end.

(** The triples [[x,err,ok]] of a series, which separates them by commas. *)
Definition triples_of_series (series : string) : option (list (string * string * string)) :=
  if decide (series = EmptyString) then Some []
  else triples (split_on ","%char series).

(** The three values [ReportPlot] prints for a record. *)
Definition triple_of `{GoLib} (r0 ri : Result) : string * string * string :=
  (FormatFloat32 (elapsed r0 ri),
   if decide (Error ri = EmptyString) then NaN else FormatFloat32 (millis ri),
   if decide (Error ri = EmptyString) then FormatFloat32 (millis ri) else NaN).

(** A result whose timestamp is [c] nanoseconds later. *)
Definition later (c : Z) (x : Result) : Result :=
  mkResult (Code x) (Timestamp x + c) (Latency x) (BytesOut x) (BytesIn x) (Error x).

End Reporters.

(** * Sorting results by timestamp *)

Module Sorting.

(** [r[i]] for an [int] index: [None] is the panic of an index out of
    range. *)
Definition index (r : Results) (i : Z) : option Result :=
  if (i <? 0)%Z then None else r !! Z.to_nat i.

(** [r[i] = x], once [r[i]] is known to be in range. *)
Definition store (r : Results) (i : Z) (x : Result) : Results :=
  <[Z.to_nat i:=x]> r.

(** [func (r Results) Len() int { return len(r) }]. *)
Definition Len (r : Results) : Z := Z.of_nat (length r).

(** [t.Before(u)] on instants. *)
Definition Before (t u : Z) : bool := (t <? u)%Z.

(** [func (r Results) Less(i, j int) bool
     { return r[i].Timestamp.Before(r[j].Timestamp) }]. *)
Definition Less (r : Results) (i j : Z) : option bool :=
  x ← index r i;
  y ← index r j;
  Some (Before (Timestamp x) (Timestamp y)).

(** [func (r Results) Swap(i, j int) { r[i], r[j] = r[j], r[i] }]: both
    elements are read, then [r[i]] and [r[j]] are written in this order.
    The result is the slice after the call. *)
Definition Swap (r : Results) (i j : Z) : option Results :=
  y ← index r j;
  x ← index r i;
  Some (store (store r i y) j x).

(** No later element is less than an earlier one: what sorting with
    these methods establishes. *)
Definition sorted (r : Results) : Prop :=
  ∀ i j, (i < j)%Z → Less r j i ≠ Some true.

(** ** Slices that may hold nil

    The methods on a [[]*Result] whose pointers may be nil: an element is
    [None] for nil. [None] as a result is a panic, of an index out of range
    or of a nil pointer dereference. *)

Definition index_ptr (r : list (option Result)) (i : Z) : option (option Result) :=
  if (i <? 0)%Z then None else r !! Z.to_nat i.

(** [r[i].Timestamp.Before(r[j].Timestamp)]: each of the two elements is
    indexed and then dereferenced for its timestamp. *)
Definition Less_ptr (r : list (option Result)) (i j : Z) : option bool :=
  p ← index_ptr r i;
  x ← p;
  q ← index_ptr r j;
  y ← q;
  Some (Before (Timestamp x) (Timestamp y)).

(** [r[i], r[j] = r[j], r[i]]: the pointers are copied, not followed. *)
Definition Swap_ptr (r : list (option Result)) (i j : Z) : option (list (option Result)) :=
  q ← index_ptr r j;
  p ← index_ptr r i;
  Some (<[Z.to_nat j:=p]> (<[Z.to_nat i:=q]> r)).

(** [len(r)] of such a slice. *)
Definition Len_ptr (r : list (option Result)) : Z := Z.of_nat (length r).

End Sorting.

(** * Properties of the collector *)

Module CollectorProofs.
Import Collector.

(** ** List bookkeeping *)

Lemma sum_list_with_insert {A} (f : A → nat) (l : list A) i x y :
  l !! i = Some x →
  sum_list_with f (<[i:=y]> l) + f x = sum_list_with f l + f y.
Proof.
  intros Hi.
  rewrite <- (take_drop_middle l i x Hi) at 2.
  rewrite insert_take_drop by (eapply lookup_lt_Some; eauto).
  rewrite !sum_list_with_app. simpl. lia.
Qed.

Lemma concat_insert_perm {A B} (f : A → list B) (l : list A) i x y :
  l !! i = Some x →
  f x ++ concat (f <$> <[i:=y]> l) ≡ₚ f y ++ concat (f <$> l).
Proof.
  intros Hi.
  rewrite <- (take_drop_middle l i x Hi) at 2.
  rewrite insert_take_drop by (eapply lookup_lt_Some; eauto).
  rewrite !fmap_app, !fmap_cons, !concat_app. simpl.
  solve_Permutation.
Qed.

Lemma items_app tr e : items (tr ++ [e]) = items tr ++ from_option (λ d, [d]) [] (item_of e).
Proof.
  unfold items. rewrite omap_app. simpl. by destruct (item_of e).
Qed.

Lemma eofs_app tr e : eofs (tr ++ [e]) = eofs tr + (if is_eof e then 1 else 0).
Proof.
  unfold eofs. rewrite filter_app, length_app. f_equal.
  rewrite filter_cons. destruct (is_eof e); by case_decide.
Qed.

Lemma live_task_exists (l : list task) :
  0 < sum_list_with live l → ∃ i t, l !! i = Some t ∧ t ≠ Returned.
Proof.
  induction l as [|t l IH]; simpl; [lia|].
  intros Hpos. destruct t; try (by eexists 0, _).
  destruct IH as (i & t' & Hi & Hne); [simpl in Hpos; lia|].
  by exists (S i), t'.
Qed.

(** ** One move *)

Lemma inv_init ins : inv ins (Collect ins).
Proof.
  split; simpl; done.
Qed.

Lemma step_inv ins a s s' : inv ins s → step a s = Next s' → inv ins s'.
Proof.
  intros [Hwg Hsp Hcl Hit Hcnt Heof Htr] Hstep.
  destruct s as [pend tks w cl tr]; simpl in *.
  destruct a; simpl in Hstep.
  - destruct pend as [|src rest].
    + destruct cl; simplify_eq. split; simpl; try done.
    + simplify_eq. split; simpl.
      * rewrite sum_list_with_app. simpl. lia.
      * intros H. by specialize (Hsp H).
      * intros H. destruct cl; try done; by specialize (Hsp ltac:(done)).
      * rewrite fmap_app, concat_app. simpl. rewrite <- Hit.
        rewrite app_nil_r. solve_Permutation.
      * rewrite length_app. simpl in *. lia.
      * rewrite length_app. simpl. lia.
      * done.
  - destruct (tks !! i) as [t|] eqn:Hi; [|done].
    pose proof (sum_list_with_insert live tks i t) as Hlive.
    pose proof (concat_insert_perm todo tks i t) as Htodo.
    destruct t as [[|[r|e] src]|e src|r src|]; simpl in Hstep; try done.
    + destruct w as [|n]; [done|]. simplify_eq.
      specialize (Hlive Returned Hi). specialize (Htodo Returned Hi).
      simpl in *. split; simpl.
      * lia.
      * done.
      * intros H. by specialize (Hcl H).
      * rewrite items_app. simpl. rewrite app_nil_r. by rewrite Htodo.
      * by rewrite length_insert.
      * rewrite eofs_app, length_insert. simpl. lia.
      * destruct cl; try (specialize (Hcl eq_refl); done).
        all: apply Forall_app; split; [done|by repeat constructor].
    + simplify_eq. specialize (Hlive (SendingRes r src) Hi).
      specialize (Htodo (SendingRes r src) Hi). simpl in *.
      split; simpl; try done.
      * lia.
      * apply (Permutation_app_inv_l (_ :: src)) in Htodo. by rewrite Htodo.
      * by rewrite length_insert.
      * by rewrite length_insert.
    + simplify_eq. specialize (Hlive (SendingErr e src) Hi).
      specialize (Htodo (SendingErr e src) Hi). simpl in *.
      split; simpl; try done.
      * lia.
      * apply (Permutation_app_inv_l (_ :: src)) in Htodo. by rewrite Htodo.
      * by rewrite length_insert.
      * by rewrite length_insert.
    + destruct (errs_closed _) eqn:Hc; [done|]. simplify_eq.
      specialize (Hlive (Decoding src) Hi).
      specialize (Htodo (Decoding src) Hi). simpl in *.
      split; simpl; try done.
      * lia.
      * rewrite Permutation_middle in Htodo.
        apply Permutation_app_inv_l in Htodo.
        rewrite items_app. simpl. rewrite <- Hit, <- Htodo. solve_Permutation.
      * by rewrite length_insert.
      * rewrite eofs_app, length_insert. simpl. lia.
      * pose proof (sum_list_with_in _ live _ (list_elem_of_lookup_2 _ _ _ Hi)) as Hw.
        simpl in Hw.
        destruct cl; try done; try (specialize (Hcl eq_refl); lia).
        all: apply Forall_app; split; [done|by repeat constructor].
    + destruct (resc_closed _) eqn:Hc; [done|]. simplify_eq.
      specialize (Hlive (Decoding src) Hi).
      specialize (Htodo (Decoding src) Hi). simpl in *.
      split; simpl; try done.
      * lia.
      * unfold resc_closed in *. simpl in *. congruence.
      * rewrite Permutation_middle in Htodo.
        apply Permutation_app_inv_l in Htodo.
        rewrite items_app. simpl. rewrite <- Hit, <- Htodo. solve_Permutation.
      * by rewrite length_insert.
      * rewrite eofs_app, length_insert. simpl. lia.
      * destruct cl; try done.
        all: apply Forall_app; split; [done|by repeat constructor].
  - destruct cl; try done.
    + destruct w; [|done]. simplify_eq. split; simpl; try done.
      * intros _. by apply Hsp.
      * rewrite items_app. simpl. by rewrite app_nil_r.
      * by rewrite eofs_app, Nat.add_0_r.
      * by exists tr.
    + simplify_eq. split; simpl; try done.
      * intros _. by apply Hsp.
      * rewrite items_app. simpl. by rewrite app_nil_r.
      * by rewrite eofs_app, Nat.add_0_r.
      * destruct Htr as (body & -> & Hbody). exists body.
        by rewrite <- (assoc_L (++)).
Qed.

Lemma step_safe ins a s : inv ins s → step a s ≠ Crash.
Proof.
  intros [Hwg _ Hcl _ _ _ _].
  destruct a; simpl; try by repeat case_match.
  destruct (tasks s !! i) as [t|] eqn:Hi; [|done].
  pose proof (sum_list_with_in _ live _ (list_elem_of_lookup_2 _ _ _ Hi)) as Hw.
  rewrite <- Hwg in Hw.
  destruct t as [[|[r|e] src]|e src|r src|]; simpl in *; try done.
  - by destruct (wg s); [lia|].
  - destruct (errs_closed s) eqn:Hc; [|done].
    unfold errs_closed, resc_closed in *. destruct (closing s); try done.
    specialize (Hcl eq_refl). lia.
  - destruct (resc_closed s) eqn:Hc; [|done]. specialize (Hcl eq_refl). lia.
Qed.

Lemma step_moves a s s' : step a s = Next s' → S (moves s') = moves s.
Proof.
  destruct s as [pend tks w cl tr]. unfold moves.
  destruct a; simpl; intros Hstep.
  - destruct pend as [|src rest].
    + destruct cl; simplify_eq; simpl; lia.
    + simplify_eq. simpl. rewrite sum_list_with_app. simpl. lia.
  - destruct (tks !! i) as [t|] eqn:Hi; [|done].
    pose proof (sum_list_with_insert task_moves tks i t) as Hm.
    destruct t as [[|[r|e] src]|e src|r src|]; simpl in Hstep; try done;
      repeat case_match; simplify_eq; simpl;
      match goal with
      | |- context [<[i:=?t']> tks] => specialize (Hm t' Hi); simpl in Hm; lia
      end.
  - destruct cl; try done; repeat case_match; simplify_eq; simpl; lia.
Qed.

(** As long as a channel is open some goroutine can move: no schedule
    deadlocks. *)
Lemma progress ins s : inv ins s → ¬ finished s → ∃ a s', step a s = Next s'.
Proof.
  intros Hinv Hfin. pose proof Hinv as [Hwg Hsp _ _ _ _ _].
  unfold finished in Hfin.
  destruct s as [pend tks w cl tr]; simpl in *.
  destruct pend as [|src rest]; [|by eexists Main, _].
  destruct cl; try done.
  - by eexists Main, _.
  - destruct w as [|n]; [by eexists Closer, _|].
    destruct (live_task_exists tks) as (i & t & Hi & Hne); [lia|].
    exists (Task i).
    pose proof (step_safe _ (Task i) _ Hinv) as Hsafe. simpl in *.
    rewrite Hi in *.
    destruct t as [[|[r|e] src']|e src'|r src'|]; simpl in *; try done; by eexists.
  - by eexists Closer, _.
Qed.

Example run_sample_corrupt :
  trace (final_state sample_schedule_corrupt sample_corrupt)
  = [RecvRes (sample_record 200 1); RecvRes (sample_record 200 2); SawEOF 1;
     RecvErr "gob: bad data"; RecvRes (sample_record 200 3); SawEOF 0;
     CloseResc; CloseErrs].
Proof. reflexivity. Qed.

(** ** Schedules *)

Lemma run_inv ins acts s s' : inv ins s → run acts s = Next s' → inv ins s'.
Proof.
  revert s. induction acts as [|a acts IH]; simpl; intros s Hinv Hrun.
  - by simplify_eq.
  - destruct (step a s) as [s1| |] eqn:Hstep; try done.
    eauto using step_inv.
Qed.

Lemma run_safe ins acts s : inv ins s → run acts s ≠ Crash.
Proof.
  revert s. induction acts as [|a acts IH]; simpl; intros s Hinv; [done|].
  destruct (step a s) as [s1| |] eqn:Hstep; try done.
  - eauto using step_inv.
  - by eapply step_safe in Hstep.
Qed.

Lemma run_moves acts s s' : run acts s = Next s' → length acts + moves s' = moves s.
Proof.
  revert s. induction acts as [|a acts IH]; simpl; intros s Hrun.
  - by simplify_eq.
  - destruct (step a s) as [s1| |] eqn:Hstep; try done.
    apply step_moves in Hstep. apply IH in Hrun. lia.
Qed.

(** ** What the consumer has received when the channels close *)

#[local] Instance records_Permutation : Proper ((≡ₚ) ==> (≡ₚ)) records.
Proof. intros l1 l2 H. unfold records. by rewrite H. Qed.

#[local] Instance failures_Permutation : Proper ((≡ₚ) ==> (≡ₚ)) failures.
Proof. intros l1 l2 H. unfold failures. by rewrite H. Qed.

Lemma delivered_items tr : records (items tr) = delivered tr.
Proof.
  unfold records, items, delivered.
  induction tr as [|[] tr IH]; csimpl in *; by rewrite ?IH.
Qed.

Lemma reported_items tr : failures (items tr) = reported tr.
Proof.
  unfold failures, items, reported.
  induction tr as [|[] tr IH]; csimpl in *; by rewrite ?IH.
Qed.

Lemma omap_concat {A B} (f : A → option B) (ls : list (list A)) :
  omap f (concat ls) = concat ((omap f : list A → list B) <$> ls).
Proof.
  induction ls as [|l ls IH]; csimpl; [done|]. by rewrite omap_app, IH.
Qed.

Lemma no_live_all_returned (l : list task) :
  sum_list_with live l = 0 → concat (todo <$> l) = [].
Proof.
  induction l as [|t l IH]; simpl; [done|].
  destruct t; simpl; try lia. auto.
Qed.

Lemma well_formed_length src : well_formed src → length (records src) = length src.
Proof.
  unfold well_formed, failures, records.
  induction src as [|[] src IH]; csimpl; intros H; try done. by rewrite IH.
Qed.

Lemma closed_items ins s :
  inv ins s → resc_closed s = true →
  items (trace s) ≡ₚ concat ins ∧ eofs (trace s) = length ins.
Proof.
  intros [Hwg Hsp Hcl Hit Hcnt Heof _] Hc.
  specialize (Hcl Hc). rewrite Hcl in *.
  rewrite Hsp in * by (unfold resc_closed in Hc; by destruct (closing s)).
  rewrite no_live_all_returned in Hit by done. simpl in *.
  rewrite app_nil_r in Hit. split; [done|lia].
Qed.

Lemma all_returned (l : list task) :
  sum_list_with live l = 0 → Forall (λ t, t = Returned) l.
Proof.
  induction l as [|t l IH]; simpl; [by constructor|].
  destruct t; simpl; try lia. intros H. constructor; auto.
Qed.

Lemma trace_closed ins s :
  inv ins s → finished s →
  ∃ body, trace s = body ++ [CloseResc; CloseErrs]
          ∧ Forall (λ e, is_close e = false) body
          ∧ items body ≡ₚ concat ins
          ∧ eofs body = length ins.
Proof.
  intros Hinv Hfin. unfold finished in Hfin.
  destruct (closed_items ins s Hinv) as [Hit Heof].
  { unfold resc_closed. by rewrite Hfin. }
  pose proof (inv_trace _ _ Hinv) as Htr. rewrite Hfin in Htr.
  destruct Htr as (body & Htr & Hbody).
  exists body. rewrite Htr in Hit, Heof. split_and!; try done.
  - unfold items in *. rewrite omap_app in Hit. simpl in Hit.
    by rewrite app_nil_r in Hit.
  - unfold eofs in *. rewrite filter_app, length_app in Heof.
    simpl in Heof. lia.
Qed.

(** C1. When every reader holds only well-formed records, no schedule of
    [Collect] panics or deadlocks, every schedule ends after a fixed
    number of moves, a channel is closed only once every reader has
    reached end of stream, and when both channels are closed the consumer
    has received each record of each reader exactly once (their number is
    the sum of the readers' lengths) and no error, all before the two
    closes. *)
Theorem Collect_delivers_every_record
    (ins : list reader) (acts : list action) (s : state) :
  Forall well_formed ins →
  run acts (Collect ins) = Next s →
  (∀ acts', run acts' (Collect ins) ≠ Crash)
  ∧ length acts + moves s = moves (Collect ins)
  ∧ (¬ finished s → ∃ a s', step a s = Next s')
  ∧ (resc_closed s = true →
       eofs (trace s) = length ins
       ∧ Forall (λ t, t = Returned) (tasks s) ∧ pending s = [])
  ∧ (finished s →
       ∃ body, trace s = body ++ [CloseResc; CloseErrs]
         ∧ Forall (λ e, is_close e = false) body
         ∧ delivered body ≡ₚ concat (records <$> ins)
         ∧ length (delivered body) = sum_list (length <$> ins)
         ∧ reported body = []
         ∧ eofs body = length ins).
Proof.
  intros Hwf Hrun.
  pose proof (run_inv ins acts _ _ (inv_init ins) Hrun) as Hinv.
  split_and!.
  - intros acts'. apply (run_safe ins), inv_init.
  - by apply run_moves.
  - by apply (progress ins).
  - intros Hc. destruct (closed_items ins s Hinv Hc) as [_ Heof].
    pose proof (inv_closed _ _ Hinv Hc) as Hw.
    split_and!; [done| |].
    + apply all_returned. by rewrite <- (inv_wg _ _ Hinv).
    + apply (inv_spawn _ _ Hinv). unfold resc_closed in Hc.
      by destruct (closing s).
  - intros Hfin.
    destruct (trace_closed ins s Hinv Hfin) as (body & Htr & Hbody & Hit & Heof).
    assert (delivered body ≡ₚ concat (records <$> ins)) as Hdel.
    { rewrite <- delivered_items, Hit. unfold records. by rewrite omap_concat. }
    exists body. split_and!; try done.
    + rewrite Hdel, length_concat, <- list_fmap_compose. f_equal.
      apply Forall_fmap_ext. eapply Forall_impl; [exact Hwf|].
      intros src Hsrc. by apply well_formed_length.
    + apply Permutation_nil_r. rewrite <- reported_items, Hit.
      unfold failures. rewrite omap_concat.
      clear -Hwf. induction Hwf as [|src l Hsrc _ IH]; csimpl; [done|].
      unfold well_formed, failures in Hsrc. by rewrite Hsrc, IH.
Qed.

(** The theorem on the run of the two well-formed readers. *)
Lemma Collect_delivers_every_record_witness :
  Forall well_formed sample_clean
  ∧ run sample_schedule_clean (Collect sample_clean)
    = Next (final_state sample_schedule_clean sample_clean)
  ∧ length (delivered (trace (final_state sample_schedule_clean sample_clean))) = 3.
Proof.
  assert (Forall well_formed sample_clean) as Hwf by (by repeat constructor).
  split; [exact Hwf|]. split; [reflexivity|].
  destruct (Collect_delivers_every_record sample_clean sample_schedule_clean
              (final_state sample_schedule_clean sample_clean) Hwf eq_refl)
    as (_ & _ & _ & _ & Hfin).
  destruct (Hfin eq_refl) as (body & Htr & _ & _ & Hlen & _).
  rewrite Htr. unfold delivered in *. rewrite omap_app, length_app, Hlen.
  reflexivity.
Defined.

(** C2. In every state [Collect] can reach, a task blocked on sending a
    decode error hands exactly that one error to the error channel and
    goes back to decoding the rest of the same reader; a task returns only
    from a decode that met end of stream; and when both channels are
    closed the errors received are exactly the failed decodes, one each,
    and every record of every reader has been received, those after a
    failed decode included. *)
Theorem decode_error_is_reported_once
    (ins : list reader) (acts : list action) (s : state) :
  run acts (Collect ins) = Next s →
  (∀ i e src, tasks s !! i = Some (SendingErr e src) →
     step (Task i) s = Next (emit (RecvErr e) (set_task i (Decoding src) s)))
  ∧ (∀ i s', step (Task i) s = Next s' → tasks s' !! i = Some Returned →
       tasks s !! i = Some (Decoding []))
  ∧ (¬ finished s → ∃ a s', step a s = Next s')
  ∧ (finished s →
       reported (trace s) ≡ₚ concat (failures <$> ins)
       ∧ delivered (trace s) ≡ₚ concat (records <$> ins)
       ∧ eofs (trace s) = length ins).
Proof.
  intros Hrun.
  pose proof (run_inv ins acts _ _ (inv_init ins) Hrun) as Hinv.
  split_and!.
  - intros i e src Hi.
    pose proof (step_safe ins (Task i) s Hinv) as Hsafe.
    simpl in *. rewrite Hi in *. by destruct (errs_closed s).
  - intros i s' Hstep Hret. simpl in Hstep.
    destruct (tasks s !! i) as [t|] eqn:Hi; [|done].
    assert (i < length (tasks s)) as Hlt by (eapply lookup_lt_Some; eauto).
    destruct t as [[|[r|e] src]|e src|r src|]; simpl in Hstep; try done;
      repeat case_match; simplify_eq; simpl in Hret;
      by rewrite list_lookup_insert_eq in Hret.
  - by apply (progress ins).
  - intros Hfin.
    destruct (closed_items ins s Hinv) as [Hit Heof].
    { unfold resc_closed. by rewrite Hfin. }
    split_and!; [| |done].
    + rewrite <- reported_items, Hit. unfold failures. by rewrite omap_concat.
    + rewrite <- delivered_items, Hit. unfold records. by rewrite omap_concat.
Qed.

(** The theorem on the run of the readers with a corrupt record. *)
Lemma decode_error_is_reported_once_witness :
  run sample_schedule_corrupt (Collect sample_corrupt)
    = Next (final_state sample_schedule_corrupt sample_corrupt)
  ∧ reported (trace (final_state sample_schedule_corrupt sample_corrupt))
    ≡ₚ ["gob: bad data"]
  ∧ delivered (trace (final_state sample_schedule_corrupt sample_corrupt))
    ≡ₚ [sample_record 200 1; sample_record 200 3; sample_record 200 2].
Proof.
  split; [reflexivity|].
  destruct (decode_error_is_reported_once sample_corrupt sample_schedule_corrupt
              (final_state sample_schedule_corrupt sample_corrupt) eq_refl)
    as (_ & _ & _ & Hfin).
  destruct (Hfin eq_refl) as (Herr & Hrec & _).
  split; [exact Herr|exact Hrec].
Defined.

(** ** Beyond well-formed readers *)

(** X1. Whatever the readers hold and however the goroutines are
    scheduled, [Collect] does not panic: the wait group never goes below
    zero and nothing is sent on a closed channel. As long as a task has
    not returned, both channels are open and the wait group counts it. *)
Theorem Collect_never_panics (ins : list reader) (acts : list action) :
  run acts (Collect ins) ≠ Crash
  ∧ ∀ s, run acts (Collect ins) = Next s →
      wg s = sum_list_with live (tasks s)
      ∧ ∀ i t, tasks s !! i = Some t → t ≠ Returned →
          resc_closed s = false ∧ errs_closed s = false ∧ 0 < wg s.
Proof.
  split; [apply (run_safe ins), inv_init|].
  intros s Hrun.
  pose proof (run_inv ins acts _ _ (inv_init ins) Hrun) as Hinv.
  split; [apply (inv_wg _ _ Hinv)|].
  intros i t Hi Hlive.
  assert (0 < wg s) as Hwg.
  { rewrite (inv_wg _ _ Hinv).
    pose proof (sum_list_with_in _ live _ (list_elem_of_lookup_2 _ _ _ Hi)).
    destruct t; simpl in *; try done; lia. }
  pose proof (inv_closed _ _ Hinv) as Hcl.
  assert (resc_closed s = false) as Hres.
  { destruct (resc_closed s); [|done]. specialize (Hcl eq_refl). lia. }
  split_and!; try done.
  unfold errs_closed, resc_closed in *. by destruct (closing s).
Qed.

(** X2. Once both channels are closed the run is over: no goroutine can
    move, every task has returned after meeting the end of its reader,
    the two closes are the last two events, in this order, and the
    schedule had exactly the moves the readers require: for each reader
    its start, a decode and a send for each of its outcomes and the
    decode that meets the end, and three for the closer. *)
Theorem Collect_closes_last (ins : list reader) (acts : list action) (s : state) :
  run acts (Collect ins) = Next s →
  finished s →
  (∀ a, step a s = Blocked)
  ∧ Forall (λ t, t = Returned) (tasks s)
  ∧ length (tasks s) = length ins
  ∧ (∃ body, trace s = body ++ [CloseResc; CloseErrs]
       ∧ Forall (λ e, is_close e = false) body
       ∧ eofs body = length ins)
  ∧ length acts = sum_list_with (λ src, 2 * length src + 2) ins + 3.
Proof.
  intros Hrun Hfin.
  pose proof (run_inv ins acts _ _ (inv_init ins) Hrun) as Hinv.
  assert (resc_closed s = true) as Hc by (unfold resc_closed; by rewrite Hfin).
  pose proof (inv_closed _ _ Hinv Hc) as Hw.
  pose proof (inv_spawn _ _ Hinv ltac:(by rewrite Hfin)) as Hpend.
  assert (Forall (λ t, t = Returned) (tasks s)) as Hret.
  { apply all_returned. by rewrite <- (inv_wg _ _ Hinv). }
  split_and!.
  - intros [|i|]; simpl.
    + by rewrite Hpend, Hfin.
    + destruct (tasks s !! i) as [t|] eqn:Hi; [|done].
      rewrite Forall_lookup in Hret. by rewrite (Hret i t Hi).
    + by rewrite Hfin.
  - done.
  - pose proof (inv_count _ _ Hinv) as Hcnt. rewrite Hpend in Hcnt. simpl in Hcnt. lia.
  - destruct (trace_closed ins s Hinv Hfin) as (body & Htr & Hbody & _ & Heof).
    by exists body.
  - apply run_moves in Hrun.
    assert (moves s = 0) as Hzero.
    { unfold moves. rewrite Hpend, Hfin. simpl.
      clear -Hret. induction Hret as [|t l -> _ IH]; simpl; [done|]. lia. }
    rewrite Hzero in Hrun. rewrite Nat.add_0_r in Hrun. rewrite Hrun.
    unfold moves, Collect. simpl.
    clear. induction ins as [|src ins IH]; simpl; lia.
Qed.

(** The theorem on the run of the readers with a corrupt record. *)
Lemma Collect_closes_last_witness :
  run sample_schedule_corrupt (Collect sample_corrupt)
    = Next (final_state sample_schedule_corrupt sample_corrupt)
  ∧ finished (final_state sample_schedule_corrupt sample_corrupt)
  ∧ length sample_schedule_corrupt = 15.
Proof.
  split; [reflexivity|]. split; [reflexivity|].
  destruct (Collect_closes_last sample_corrupt sample_schedule_corrupt
              (final_state sample_schedule_corrupt sample_corrupt) eq_refl eq_refl)
    as (_ & _ & _ & _ & Hlen).
  exact Hlen.
Defined.

(** X3. At every moment of every schedule, what has been received, what
    the tasks still hold and what the readers not yet started hold make up
    exactly the outcomes of the readers: the consumer never receives a
    record or an error twice, nor one that no reader holds, also when it
    stops draining before the channels close. *)
Theorem Collect_conserves_outcomes (ins : list reader) (acts : list action) (s : state) :
  run acts (Collect ins) = Next s →
  items (trace s) ++ concat (todo <$> tasks s) ++ concat (pending s) ≡ₚ concat ins
  ∧ delivered (trace s) ⊆+ concat (records <$> ins)
  ∧ reported (trace s) ⊆+ concat (failures <$> ins)
  ∧ length (delivered (trace s)) + length (reported (trace s)) ≤ length (concat ins).
Proof.
  intros Hrun.
  pose proof (run_inv ins acts _ _ (inv_init ins) Hrun) as Hinv.
  pose proof (inv_items _ _ Hinv) as Hitems.
  assert (delivered (trace s) ⊆+ concat (records <$> ins)) as Hdel.
  { rewrite <- delivered_items. unfold records at 2.
    rewrite <- omap_concat, <- Hitems. unfold records. rewrite omap_app.
    by apply submseteq_inserts_r. }
  assert (reported (trace s) ⊆+ concat (failures <$> ins)) as Hrep.
  { rewrite <- reported_items. unfold failures at 2.
    rewrite <- omap_concat, <- Hitems. unfold failures. rewrite omap_app.
    by apply submseteq_inserts_r. }
  split_and!; try done.
  apply Permutation_length in Hitems. rewrite !length_app in Hitems.
  assert (length (delivered (trace s)) + length (reported (trace s))
          = length (items (trace s))) as Hsplit.
  { unfold delivered, reported, items. clear.
    induction (trace s) as [|[] tr IH]; csimpl in *; lia. }
  lia.
Qed.

(** The theorem on a run that stops before the channels close. *)
Lemma Collect_conserves_outcomes_witness :
  run sample_schedule_partial (Collect sample_corrupt)
  = Next (final_state sample_schedule_partial sample_corrupt)
  ∧ closing (final_state sample_schedule_partial sample_corrupt) = NotSpawned
  ∧ delivered (trace (final_state sample_schedule_partial sample_corrupt))
    ⊆+ concat (records <$> sample_corrupt).
Proof.
  split; [reflexivity|]. split; [reflexivity|].
  by destruct (Collect_conserves_outcomes sample_corrupt sample_schedule_partial
                 (final_state sample_schedule_partial sample_corrupt) eq_refl)
    as (_ & Hdel & _).
Defined.

(** ** The order of each reader *)

Lemma merges_app_nil {A} (ls : list (list A)) (out : list A) :
  merges ls out → merges (ls ++ [[]]) out.
Proof.
  induction 1 as [ls Hnil|ls i l x out Hi _ IH].
  - constructor. apply Forall_app. split; [done|by constructor].
  - assert (i < length ls) as Hlt by (eapply lookup_lt_Some; eauto).
    apply (merges_snoc _ i l).
    + by rewrite lookup_app_l.
    + by rewrite insert_app_l.
Qed.

Lemma merges_single {A} (l out : list A) : merges [l] out → out = l.
Proof.
  remember [l] as ls eqn:Hls. intros Hm. revert l Hls.
  induction Hm as [ls Hnil|ls i l' x out Hi _ IH]; intros l ->.
  - by apply Forall_inv in Hnil.
  - destruct i as [|i]; [|done]. simpl in Hi. simplify_eq. f_equal. by apply IH.
Qed.

(** Replacing a task by one with the same work left changes nothing. *)
Lemma ordered_same_todo ins pend tks w cl tr i t t' :
  tks !! i = Some t → todo t' = todo t →
  ordered ins (mkState pend tks w cl tr) →
  ∀ w' cl' tr', items tr' = items tr →
    ordered ins (mkState pend (<[i:=t']> tks) w' cl' tr').
Proof.
  intros Hi Htodo (done & Hlen & Htasks & Hpend & Hm) w' cl' tr' Htr.
  simpl in *. exists done. simpl. rewrite length_insert, Htr.
  split_and!; try done.
  intros j u Hj. destruct (decide (i = j)) as [->|Hne].
  - rewrite list_lookup_insert_eq in Hj by (eapply lookup_lt_Some; eauto).
    simplify_eq. rewrite Htodo. by apply Htasks.
  - rewrite list_lookup_insert_ne in Hj by done. by apply Htasks.
Qed.

(** A send moves the outcome in flight from the work left to the work
    done. *)
Lemma ordered_send ins pend tks w cl tr i t src x e :
  tks !! i = Some t → todo t = x :: src → item_of e = Some x →
  ordered ins (mkState pend tks w cl tr) →
  ordered ins (mkState pend (<[i:=Decoding src]> tks) w cl (tr ++ [e])).
Proof.
  intros Hi Htodo He (done & Hlen & Htasks & Hpend & Hm). simpl in *.
  destruct (Htasks i t Hi) as (d & Hd & Hins).
  assert (i < length done) as Hlt by (eapply lookup_lt_Some; eauto).
  exists (<[i:=d ++ [x]]> done). simpl. rewrite !length_insert.
  split_and!; try done.
  - intros j u Hj. destruct (decide (i = j)) as [->|Hne].
    + rewrite list_lookup_insert_eq in Hj by (eapply lookup_lt_Some; eauto).
      simplify_eq. exists (d ++ [x]). rewrite list_lookup_insert_eq by done.
      split; [done|]. rewrite Hins, Htodo. simpl. by rewrite <- (assoc_L (++)).
    + rewrite list_lookup_insert_ne in Hj by done.
      rewrite list_lookup_insert_ne by done. by apply Htasks.
  - rewrite items_app, He. simpl.
    apply (merges_snoc _ i d).
    + by rewrite list_lookup_insert_eq.
    + by rewrite list_insert_insert_eq, list_insert_id.
Qed.

Lemma ordered_init ins : ordered ins (Collect ins).
Proof.
  exists []. simpl. split_and!; try done.
  constructor. constructor.
Qed.

Lemma step_ordered ins a s s' : ordered ins s → step a s = Next s' → ordered ins s'.
Proof.
  intros Hord Hstep. destruct s as [pend tks w cl tr].
  destruct a; simpl in Hstep.
  - destruct pend as [|src rest].
    + destruct cl; simplify_eq.
      destruct Hord as (done & ?). by exists done.
    + simplify_eq. destruct Hord as (done & Hlen & Htasks & Hpend & Hm).
      simpl in *. exists (done ++ [[]]). simpl. rewrite !length_app. simpl.
      split_and!.
      * lia.
      * intros i t Hi. apply lookup_app_Some in Hi as [Hi|[Hge Hi]].
        -- destruct (Htasks i t Hi) as (d & Hd & Hins).
           exists d. split; [|done]. by apply lookup_app_l_Some.
        -- destruct (i - length tks) as [|k] eqn:Hk; [|done].
           simpl in Hi. simplify_eq.
           assert (i = length tks) as -> by lia.
           exists []. split.
           ++ rewrite lookup_app_r by lia. by rewrite Hlen, Nat.sub_diag.
           ++ specialize (Hpend 0 src eq_refl). by rewrite Nat.add_0_r in Hpend.
      * intros i src' Hi. specialize (Hpend (S i) src' Hi).
        by replace (length tks + 1 + i) with (length tks + S i) by lia.
      * by apply merges_app_nil.
  - destruct (tks !! i) as [t|] eqn:Hi; [|done].
    destruct t as [[|[r|e] src]|e src|r src|]; simpl in Hstep; try done.
    + destruct w as [|n]; [done|]. simplify_eq.
      apply (ordered_same_todo ins pend tks _ cl tr i _ Returned Hi eq_refl Hord).
      rewrite items_app. simpl. by rewrite app_nil_r.
    + simplify_eq.
      by apply (ordered_same_todo ins pend tks _ cl tr i _ (SendingRes r src)
                  Hi eq_refl Hord).
    + simplify_eq.
      by apply (ordered_same_todo ins pend tks _ cl tr i _ (SendingErr e src)
                  Hi eq_refl Hord).
    + destruct (errs_closed _); [done|]. simplify_eq.
      by apply (ordered_send ins pend tks _ cl tr i _ src (Bad e) (RecvErr e)
                  Hi eq_refl eq_refl).
    + destruct (resc_closed _); [done|]. simplify_eq.
      by apply (ordered_send ins pend tks _ cl tr i _ src (Rec r) (RecvRes r)
                  Hi eq_refl eq_refl).
  - destruct Hord as (done & Hlen & Htasks & Hpend & Hm). simpl in *.
    destruct cl; try done.
    + destruct w; [|done]. simplify_eq. exists done. simpl.
      rewrite items_app. simpl. by rewrite app_nil_r.
    + simplify_eq. exists done. simpl.
      rewrite items_app. simpl. by rewrite app_nil_r.
Qed.

Lemma run_ordered ins acts s s' : ordered ins s → run acts s = Next s' → ordered ins s'.
Proof.
  revert s. induction acts as [|a acts IH]; simpl; intros s Hord Hrun.
  - by simplify_eq.
  - destruct (step a s) as [s1| |] eqn:Hstep; try done.
    eauto using step_ordered.
Qed.

(** X4. What the consumer receives is an interleaving of the readers that
    keeps the order of each: at every moment the outcomes received so far
    interleave what the tasks have handed over, each a prefix of its
    reader, and when both channels are closed they interleave the whole
    readers. With one reader the consumer receives its outcomes, records
    and errors, in the very order of the reader. *)
Theorem Collect_keeps_reader_order (ins : list reader) (acts : list action) (s : state) :
  run acts (Collect ins) = Next s →
  ordered ins s
  ∧ (finished s → merges ins (items (trace s)))
  ∧ (finished s → ∀ src, ins = [src] →
       items (trace s) = src ∧ delivered (trace s) = records src
       ∧ reported (trace s) = failures src).
Proof.
  intros Hrun.
  pose proof (run_inv ins acts _ _ (inv_init ins) Hrun) as Hinv.
  pose proof (run_ordered ins acts _ _ (ordered_init ins) Hrun) as Hord.
  assert (finished s → merges ins (items (trace s))) as Hmerge.
  { intros Hfin. destruct Hord as (done & Hlen & Htasks & _ & Hm).
    assert (resc_closed s = true) as Hc by (unfold resc_closed; by rewrite Hfin).
    pose proof (inv_closed _ _ Hinv Hc) as Hw.
    pose proof (inv_spawn _ _ Hinv ltac:(by rewrite Hfin)) as Hpend.
    pose proof (inv_count _ _ Hinv) as Hcnt. rewrite Hpend in Hcnt. simpl in Hcnt.
    assert (Forall (λ t, t = Returned) (tasks s)) as Hret.
    { apply all_returned. by rewrite <- (inv_wg _ _ Hinv). }
    replace ins with done; [done|].
    apply list_eq_same_length with (length done); [lia|done|].
    intros i d d' Hlt Hd Hd'.
    destruct (lookup_lt_is_Some_2 (tasks s) i) as [t Ht]; [lia|].
    destruct (Htasks i t Ht) as (d0 & Hd0 & Hins).
    rewrite Forall_lookup in Hret. rewrite (Hret i t Ht) in Hins. simpl in Hins.
    rewrite app_nil_r in Hins. congruence. }
  split_and!; [done|done|].
  intros Hfin src ->. specialize (Hmerge Hfin).
  apply merges_single in Hmerge.
  by rewrite <- delivered_items, <- reported_items, Hmerge.
Qed.

(** The theorem on the run over one reader with a corrupt record in the
    middle. *)
Lemma Collect_keeps_reader_order_witness :
  run sample_schedule_single (Collect [sample_single])
  = Next (final_state sample_schedule_single [sample_single])
  ∧ items (trace (final_state sample_schedule_single [sample_single])) = sample_single.
Proof.
  split; [reflexivity|].
  destruct (Collect_keeps_reader_order [sample_single] sample_schedule_single
              (final_state sample_schedule_single [sample_single]) eq_refl)
    as (_ & _ & Hone).
  by destruct (Hone eq_refl sample_single eq_refl) as (Hitems & _).
Defined.

End CollectorProofs.

(** * Properties of the reporters *)

Module ReporterProofs.
Import Reporters.

Local Open Scope string_scope.

(** ** Strings *)

Lemma append_cons (x : ascii) (a b : string) : String x a +:+ b = String x (a +:+ b).
Proof. reflexivity. Qed.

Lemma append_nil_l (a : string) : EmptyString +:+ a = a.
Proof. reflexivity. Qed.

Lemma append_assoc (a b c : string) : (a +:+ b) +:+ c = a +:+ (b +:+ c).
Proof.
  induction a as [|x a IH]; [done|]. by rewrite !append_cons, IH.
Qed.

Lemma append_nil_r (a : string) : a +:+ EmptyString = a.
Proof. induction a as [|x a IH]; [done|]. by rewrite append_cons, IH. Qed.

Lemma length_append (a b : string) :
  String.length (a +:+ b) = String.length a + String.length b.
Proof.
  induction a as [|x a IH]; [done|]. rewrite append_cons. simpl. by rewrite IH.
Qed.

Lemma substring_append (a b : string) : substring 0 (String.length a) (a +:+ b) = a.
Proof.
  induction a as [|x a IH]; [by destruct b|].
  rewrite append_cons. simpl. by rewrite IH.
Qed.


(** ** The template *)

Lemma exec_IfEq `{GoLib} chain k thn els dot :
  exec_node (IfEqNode chain k thn els) dot =
  match eval_chain chain dot with
  | inl (VInt z) => if (z =? k)%Z then Execute thn dot else Execute els dot
  | inl _ => (EmptyString, Some "error calling eq: incompatible types for comparison")
  | inr err => (EmptyString, Some err)
  end.
Proof. reflexivity. Qed.

Lemma exec_Range_cons `{GoLib} chain body els dot x r :
  eval_chain chain dot = inl (VResults (x :: r)) →
  ∃ others,
    exec_node (RangeNode chain body els) dot
    = and_then (Execute body (VResult x)) others.
Proof. intros Hdot. simpl. rewrite Hdot. by eexists. Qed.

Lemma Execute_cons `{GoLib} n t dot :
  Execute (n :: t) dot = and_then (exec_node n dot) (Execute t dot).
Proof. reflexivity. Qed.

Lemma and_then_text (text : string) (rest : written) :
  and_then (text, None) rest = (text +:+ rest.1, rest.2).
Proof. reflexivity. Qed.

Lemma and_then_error (text : string) (err : error) (rest : written) :
  and_then (text, Some err) rest = (text, Some err).
Proof. reflexivity. Qed.

Lemma plot_loop_no_panic `{GoLib} (r : Results) i n series :
  i + n = length r → is_Some (plot_loop r i n series).
Proof.
  revert i series. induction n as [|n IH]; intros i series Hlen; simpl; [done|].
  destruct (lookup_lt_is_Some_2 r i) as [ri Hi]; [lia|].
  destruct (lookup_lt_is_Some_2 r 0) as [r0 H0]; [lia|].
  rewrite Hi. simpl. rewrite H0. simpl. apply IH. lia.
Qed.

Lemma plot_series_no_panic `{GoLib} (r : Results) : is_Some (plot_series r).
Proof.
  unfold plot_series.
  destruct (plot_loop_no_panic r 0 (length r) EmptyString) as [series Hs]; [done|].
  rewrite Hs. by eexists.
Qed.

(** [ReportPlot] never indexes outside its argument. *)
Lemma ReportPlot_no_panic `{GoLib} (r : Results) : is_Some (ReportPlot r).
Proof.
  unfold ReportPlot. destruct (plot_series_no_panic r) as [series Hs].
  rewrite Hs. by eexists.
Qed.

Lemma exec_row_colour `{GoLib} (x : Result) :
  exec_node row_colour (VResult x)
  = (if (Code x =? 200)%Z then success_colour else failure_colour, None).
Proof.
  unfold row_colour. rewrite exec_IfEq. simpl.
  by destruct (Code x =? 200)%Z.
Qed.

(** The row template stops at [{{.Request.Method}}]: results.go gives
    [Result] no [Request]. *)
Lemma Execute_row_fails `{GoLib} (x : Result) :
  ∃ text, Execute row_template (VResult x) = (text, Some (cant_evaluate "Request")).
Proof.
  unfold row_template. rewrite !Execute_cons.
  rewrite exec_row_colour.
  destruct (Code x =? 200)%Z; by eexists.
Qed.

(** So [ReportPlot] returns that error, and no document, for every
    collection that is not empty. *)
Lemma ReportPlot_fails_on_any_record `{GoLib} (x : Result) (rest : Results) :
  ReportPlot (x :: rest) = Some (EmptyString, Some (cant_evaluate "Request")).
Proof.
  destruct (plot_series_no_panic (x :: rest)) as [series Hs].
  unfold ReportPlot. rewrite Hs. cbv beta iota delta [mbind option_bind].
  unfold plotsTemplate. rewrite !Execute_cons.
  destruct (exec_Range_cons ["Results"] row_template empty_template
              (VCtx dygraphJSLibSrc series (x :: rest)) x rest eq_refl)
    as [others ->].
  destruct (Execute_row_fails x) as [text ->].
  rewrite and_then_error.
  change (exec_node (TextNode ?t) _) with ((t, None) : written).
  change (exec_node (FieldNode ["JsSrc"]) (VCtx ?js ?se ?r)) with ((js, None) : written).
  change (exec_node (FieldNode ["Series"]) (VCtx ?js ?se ?r)) with ((se, None) : written).
  by rewrite !and_then_text.
Qed.

(** C5. On the empty collection the statistics are computed and every
    count, total, duration, mean and ratio is zero: the histogram and the
    error set are empty and the success ratio is the number zero, not the
    result of a division by zero. *)
Theorem NewMetrics_empty :
  NewMetrics [] =
    {| Requests := 0; Duration := 0; Wait := 0;
       Latencies := {| Mean := 0; P50 := 0; P95 := 0; P99 := 0; Max := 0 |};
       MBytesIn := {| Total := 0; BMean := 0 |};
       MBytesOut := {| Total := 0; BMean := 0 |};
       Success := 0; StatusCodes := ∅; Errors := [] |}
  ∧ (Success (NewMetrics []) =? 0)%float = true
  ∧ (BMean (MBytesIn (NewMetrics [])) =? 0)%float = true
  ∧ (BMean (MBytesOut (NewMetrics [])) =? 0)%float = true.
Proof. by split_and!. Qed.



(** C8. On no results [ReportPlot] reads no element and returns without an
    error: the series is empty and the document is the page with nothing
    between the brackets of the data (the text before the series ends with
    the opening bracket, the text after it starts with the closing one)
    and with the row [<tr><b>No Results found</b></tr>] as the only row
    between the head of the table and its end. *)
Theorem ReportPlot_no_results `{GoLib} :
  plot_series [] = Some EmptyString
  ∧ ReportPlot [] =
      Some (page_head +:+ dygraphJSLibSrc +:+ chart_open +:+ EmptyString
            +:+ chart_options_and_table_head
            +:+ (nl +:+ "   " +:+ "<tr><b>No Results found</b></tr>" +:+ nl +:+ "  ")
            +:+ page_tail +:+ EmptyString, None)
  ∧ (∃ before after,
       chart_open = before +:+ "["
       ∧ chart_options_and_table_head = "]," +:+ after)
  ∧ (∃ before after,
       ReportPlot [] = Some (before +:+ "<tr><b>No Results found</b></tr>" +:+ after, None))
  ∧ (∃ before,
       chart_options_and_table_head
       = before +:+ "<th>Out (bytes)</th>" +:+ nl +:+ "  </tr>" +:+ nl +:+ "  ")
  ∧ page_tail = nl +:+ "  </table>" +:+ nl +:+ "</html>".
Proof.
  assert (ReportPlot [] =
      Some (page_head +:+ dygraphJSLibSrc +:+ chart_open +:+ EmptyString
            +:+ chart_options_and_table_head
            +:+ (nl +:+ "   " +:+ "<tr><b>No Results found</b></tr>" +:+ nl +:+ "  ")
            +:+ page_tail +:+ EmptyString, None)) as Hdoc
    by (vm_compute; reflexivity).
  split_and!; [done|exact Hdoc| | | |].
  - exists (substring 0 (String.length chart_open - 1) chart_open),
      (substring 2 (String.length chart_options_and_table_head)
         chart_options_and_table_head).
    split; vm_compute; reflexivity.
  - exists (page_head +:+ dygraphJSLibSrc +:+ chart_open
            +:+ chart_options_and_table_head +:+ nl +:+ "   "),
      (nl +:+ "  " +:+ page_tail).
    rewrite Hdoc. do 2 f_equal.
    rewrite !append_assoc, !append_nil_l, !append_nil_r. reflexivity.
  - exists (substring 0 (String.length chart_options_and_table_head - 31)
              chart_options_and_table_head).
    vm_compute. reflexivity.
  - vm_compute. reflexivity.
Qed.

(** C9. Each reporter returns either the error of the step that failed
    together with an empty payload, or no error together with everything
    that step produced: the flushed table, the marshalled statistics (as
    long as [json.Marshal] itself hands back no bytes with its error), the
    executed template. *)
Theorem reporters_all_or_nothing `{GoLib} (r : Results) :
  (∀ m err, (json_Marshal m).2 = Some err → (json_Marshal m).1 = EmptyString) →
  (∀ kvs,
     let flushed := tabwriter_Flush (text_written kvs (NewMetrics r)) in
     (ReportText_run kvs r).2 = flushed.2
     ∧ all_or_nothing (ReportText_run kvs r) flushed.1)
  ∧ all_or_nothing (ReportJSON r) (json_Marshal (NewMetrics r)).1
  ∧ (∃ series res,
       plot_series r = Some series ∧ ReportPlot r = Some res
       ∧ let executed := Execute plotsTemplate (VCtx dygraphJSLibSrc series r) in
         res.2 = executed.2 ∧ all_or_nothing res executed.1).
Proof.
  intros Hjson. split_and!.
  - intros kvs. unfold ReportText_run. simpl.
    by destruct (tabwriter_Flush _) as [out [err|]].
  - unfold ReportJSON, all_or_nothing.
    specialize (Hjson (NewMetrics r)).
    destruct (json_Marshal _) as [out [err|]]; simpl in *; eauto.
  - destruct (plot_series_no_panic r) as [series Hs].
    exists series. unfold ReportPlot. rewrite Hs.
    cbv beta iota delta [mbind option_bind].
    eexists. split_and!; [done|reflexivity|..];
      by destruct (Execute plotsTemplate _) as [out [err|]].
Qed.

(** The theorem with the sample library: the plot of three results fails
    in the template and returns no bytes, and so does the text report over
    a buffer that is too short. *)
Lemma reporters_all_or_nothing_witness :
  (∀ m err, (sample_marshal m).2 = Some err → (sample_marshal m).1 = EmptyString)
  ∧ ReportPlot (H := sample_lib) sample_results
    = Some (EmptyString, Some "can't evaluate field Request")
  ∧ ReportText_run (H := short_write_lib) [] sample_results
    = (EmptyString, Some "short write").
Proof.
  assert (∀ m err, (sample_marshal m).2 = Some err →
                   (sample_marshal m).1 = EmptyString) as Hjson.
  { intros m err. unfold sample_marshal. by destruct (_ =? _)%float. }
  split; [exact Hjson|]. split.
  - destruct (reporters_all_or_nothing (H := sample_lib) sample_results Hjson)
      as (_ & _ & series & res & _ & Hres & _).
    rewrite Hres. vm_compute in Hres. by simplify_eq.
  - reflexivity.
Defined.

(** C4 at two results with the status codes 200 and 500: the two orders
    in which the histogram can be ranged over are both orders of the map,
    and [ReportText] writes different text for them, whatever the library
    prints; with a tab writer that passes the text on, the two reports
    differ. *)
Theorem ReportText_depends_on_map_order `{GoLib} :
  let m := NewMetrics two_codes in
  let kvs1 := [("200", 1%Z); ("500", 1%Z)] in
  let kvs2 := [("500", 1%Z); ("200", 1%Z)] in
  map_range (StatusCodes m) kvs1
  ∧ map_range (StatusCodes m) kvs2
  ∧ text_written kvs1 m ≠ text_written kvs2 m
  ∧ ∃ res1 res2,
      ReportText (H := sample_lib) two_codes res1
      ∧ ReportText (H := sample_lib) two_codes res2
      ∧ res1 ≠ res2.
Proof.
  assert (map_to_list (StatusCodes (NewMetrics two_codes))
          = [("500", 1%Z); ("200", 1%Z)]) as Hlist by (vm_compute; reflexivity).
  assert (map_range (StatusCodes (NewMetrics two_codes)) [("200", 1%Z); ("500", 1%Z)])
    as H1 by (unfold map_range; rewrite Hlist; apply Permutation_swap).
  assert (map_range (StatusCodes (NewMetrics two_codes)) [("500", 1%Z); ("200", 1%Z)])
    as H2 by (unfold map_range; by rewrite Hlist).
  simpl. split_and!; [done|done| |].
  - unfold text_written. intros Heq.
    repeat match type of Heq with
           | ?a +:+ _ = ?a +:+ _ => apply (inj (String.append a)) in Heq
           end.
    vm_compute in Heq. discriminate Heq.
  - eexists _, _. split_and!.
    + exists [("200", 1%Z); ("500", 1%Z)]. split; [exact H1|reflexivity].
    + exists [("500", 1%Z); ("200", 1%Z)]. split; [exact H2|reflexivity].
    + vm_compute. discriminate.
Qed.

(** ** The series *)

Lemma plot_loop_spec `{GoLib} (r0 : Result) (rest : Results) i n series :
  i + n = length (r0 :: rest) →
  plot_loop (r0 :: rest) i n series
  = Some (series +:+ flat (point r0 <$> drop i (r0 :: rest))).
Proof.
  revert i series. induction n as [|n IH]; intros i series Hlen.
  - rewrite drop_ge by lia. simpl. by rewrite append_nil_r.
  - destruct (lookup_lt_is_Some_2 (r0 :: rest) i) as [ri Hi]; [lia|].
    change (plot_loop (r0 :: rest) i (S n) series)
      with ((r0 :: rest) !! i ≫= λ ri,
            (r0 :: rest) !! 0 ≫= λ r0',
            plot_loop (r0 :: rest) (S i) n (series +:+ point r0' ri)).
    rewrite Hi. cbv beta iota delta [mbind option_bind].
    change ((r0 :: rest) !! 0) with (Some r0). cbv beta iota.
    rewrite IH by lia. rewrite (drop_S _ _ _ Hi).
    rewrite fmap_cons. simpl. by rewrite append_assoc.
Qed.

Lemma Time_Sub_diag (t : Z) : Time_Sub t t = 0%Z.
Proof. unfold Time_Sub. by rewrite Z.sub_diag. Qed.

Lemma Time_Sub_exact (t u : Z) :
  (minDuration ≤ t - u ≤ maxDuration)%Z → Time_Sub t u = (t - u)%Z.
Proof.
  intros [Hlo Hhi]. unfold Time_Sub. cbv zeta.
  destruct (Z.ltb_spec (t - u) minDuration); [lia|].
  destruct (Z.ltb_spec maxDuration (t - u)); [lia|done].
Qed.

(** Every point ends with the comma that separates it from the next. *)
Lemma point_ends_with_comma `{GoLib} (r0 ri : Result) :
  ∃ body, point r0 ri = body +:+ ",".
Proof.
  unfold point. cbv zeta. case_decide.
  - exists (("[" +:+ FormatFloat32 (elapsed r0 ri) +:+ ",")
            +:+ "NaN," +:+ FormatFloat32 (millis ri) +:+ "]").
    by rewrite !append_assoc.
  - exists (("[" +:+ FormatFloat32 (elapsed r0 ri) +:+ ",")
            +:+ FormatFloat32 (millis ri) +:+ ",NaN]").
    by rewrite !append_assoc.
Qed.

Lemma flat_ends_with_comma (l : list string) :
  l ≠ [] → (∀ p, p ∈ l → ∃ body, p = body +:+ ",") →
  ∃ body, flat l = body +:+ ",".
Proof.
  induction l as [|p l IH]; [done|]. intros _ Hall.
  destruct l as [|q l].
  - destruct (Hall p) as [body ->]; [by left|].
    exists body. simpl. by rewrite append_nil_r.
  - destruct IH as [body Hbody]; [done|intros; apply Hall; by right|].
    exists (p +:+ body). change (flat (p :: q :: l)) with (p +:+ flat (q :: l)).
    by rewrite Hbody, append_assoc.
Qed.

Lemma Truncate_last (body : string) :
  Truncate (body +:+ ",") (String.length (body +:+ ",") - 1) = body.
Proof.
  unfold Truncate. rewrite length_append. simpl.
  replace (String.length body + 1 - 1) with (String.length body) by lia.
  apply substring_append.
Qed.

Example plot_series_sample :
  plot_series (H := sample_lib) sample_results
  = Some "[0,NaN,1.5],[1,2,NaN],[-1,NaN,1.5]".
Proof. reflexivity. Qed.

(** C10. For a collection that starts with [r0], the loop of [ReportPlot]
    writes one point per record, in the order of the collection, and the
    series is that text without its last comma. The x coordinate of the
    point of a record is the seconds of its timestamp minus the timestamp
    of [r0] (the very difference whenever it fits a duration); it is 0 for
    [r0] itself, and negative for a record that is one second older than
    the first. *)
Theorem series_follows_given_order `{GoLib} (r0 : Result) (rest : Results) :
  let r := r0 :: rest in
  plot_loop r 0 (length r) EmptyString = Some (flat (point r0 <$> r))
  ∧ (∃ series, plot_series r = Some series ∧ series +:+ "," = flat (point r0 <$> r))
  ∧ length (point r0 <$> r) = length r
  ∧ (∀ i ri, r !! i = Some ri →
       (point r0 <$> r) !! i = Some (point r0 ri)
       ∧ (∃ slots,
            point r0 ri
            = "[" +:+ FormatFloat32 (Seconds (Time_Sub (Timestamp ri) (Timestamp r0)))
                  +:+ "," +:+ slots)
       ∧ ((minDuration ≤ Timestamp ri - Timestamp r0 ≤ maxDuration)%Z →
            Time_Sub (Timestamp ri) (Timestamp r0) = (Timestamp ri - Timestamp r0)%Z))
  ∧ elapsed r0 r0 = 0%float
  ∧ (∃ first later,
       (Timestamp later < Timestamp first)%Z
       ∧ (elapsed first later <? 0)%float = true).
Proof.
  intros r. subst r.
  pose proof (plot_loop_spec r0 rest 0 (length (r0 :: rest)) EmptyString eq_refl) as Hloop.
  rewrite append_nil_l in Hloop. change (drop 0 (r0 :: rest)) with (r0 :: rest) in Hloop.
  split_and!.
  - exact Hloop.
  - destruct (flat_ends_with_comma (point r0 <$> (r0 :: rest))) as [body Hbody].
    + done.
    + intros p Hp. apply list_elem_of_fmap in Hp as (ri & -> & _).
      apply point_ends_with_comma.
    + exists body. split; [|done].
      unfold plot_series. rewrite Hloop. cbv beta iota delta [mbind option_bind].
      rewrite Hbody at 1.
      replace (0 <? String.length (body +:+ ","))%nat with true.
      * f_equal. rewrite Hbody. apply Truncate_last.
      * symmetry. apply Nat.ltb_lt. rewrite length_append. simpl. lia.
  - by rewrite length_fmap.
  - intros i ri Hi. split_and!.
    + by rewrite list_lookup_fmap, Hi.
    + unfold point, elapsed. cbv zeta.
      case_decide; rewrite !append_assoc; by eexists.
    + apply Time_Sub_exact.
  - unfold elapsed. by rewrite Time_Sub_diag.
  - exists (ok_at 2000000000 200), (ok_at 1000000000 200). by split.
Qed.

(** ** The slots of a point *)

Lemma has_char_append c (a b : string) :
  has_char c (a +:+ b) = has_char c a || has_char c b.
Proof.
  induction a as [|x a IH]; [done|].
  rewrite append_cons. simpl. by case_decide.
Qed.


Lemma split_on_append sep (a b : string) :
  has_char sep a = false →
  split_on sep (a +:+ String sep b) = a :: split_on sep b.
Proof.
  induction a as [|x a IH].
  - intros _. rewrite append_nil_l. simpl. by case_decide.
  - rewrite append_cons. simpl. case_decide; [done|].
    intros Ha. by rewrite IH.
Qed.

Lemma unbracket_append (a : string) : unbracket (a +:+ "]") = Some a.
Proof.
  induction a as [|x a IH]; [done|].
  rewrite append_cons.
  change (unbracket (String x (a +:+ "]")))
    with (match a +:+ "]" with
          | EmptyString => if decide (x = "]"%char) then Some EmptyString else None
          | _ => String x <$> unbracket (a +:+ "]")
          end).
  rewrite IH. by destruct a.
Qed.

Lemma slots_of_triple (x err ok : string) :
  has_char ","%char x = false →
  has_char ","%char err = false →
  has_char ","%char ok = false →
  slots_of_point ("[" +:+ x +:+ "," +:+ err +:+ "," +:+ ok +:+ "],") = Some (x, err, ok).
Proof.
  intros Hx Herr Hok.
  change ("[" +:+ x +:+ "," +:+ err +:+ "," +:+ ok +:+ "],")
    with (String "["%char (x +:+ String ","%char (err +:+ String ","%char (ok +:+ "],")))).
  unfold slots_of_point. case_decide; [|done].
  rewrite !split_on_append by done.
  replace (ok +:+ "],") with ((ok +:+ "]") +:+ String ","%char EmptyString)
    by (by rewrite append_assoc).
  rewrite split_on_append by (by rewrite has_char_append, Hok).
  simpl. by rewrite unbracket_append.
Qed.

(** C3. Take a point of the series, for a record [ri] and the first record
    [r0], whose two numbers are printed without a comma and whose latency
    is not printed as the marker [NaN]. Its three slots are the x
    coordinate, the failure latency and the success latency, and exactly
    one of the last two holds the latency, the other the marker: the
    success slot when the error string is empty, the failure slot when it
    is not. The status codes of the records do not enter the point, and
    the loop writes one such point for each record. *)
Theorem exactly_one_latency_slot `{GoLib} (r0 ri : Result) :
  has_char ","%char (FormatFloat32 (elapsed r0 ri)) = false →
  has_char ","%char (FormatFloat32 (millis ri)) = false →
  FormatFloat32 (millis ri) ≠ NaN →
  (∃ err ok,
     slots_of_point (point r0 ri) = Some (FormatFloat32 (elapsed r0 ri), err, ok)
     ∧ (Error ri = EmptyString → err = NaN ∧ ok = FormatFloat32 (millis ri))
     ∧ (Error ri ≠ EmptyString → err = FormatFloat32 (millis ri) ∧ ok = NaN)
     ∧ (ok ≠ NaN ↔ Error ri = EmptyString)
     ∧ (err ≠ NaN ↔ Error ri ≠ EmptyString)
     ∧ (ok = NaN ↔ err ≠ NaN))
  ∧ (∀ c0 c, point (set_code c0 r0) (set_code c ri) = point r0 ri)
  ∧ (∀ rest, plot_loop (r0 :: rest) 0 (length (r0 :: rest)) EmptyString
             = Some (flat (point r0 <$> r0 :: rest))).
Proof.
  intros Hx Hlat Hnan. split_and!.
  - unfold point. cbv zeta. case_decide as Herr.
    + exists NaN, (FormatFloat32 (millis ri)).
      split_and!; try done.
      rewrite !append_assoc. by apply (slots_of_triple _ NaN).
    + exists (FormatFloat32 (millis ri)), NaN.
      split_and!; try done.
      rewrite !append_assoc. by apply (slots_of_triple _ _ NaN).
  - done.
  - intros rest.
    pose proof (plot_loop_spec r0 rest 0 (length (r0 :: rest)) EmptyString eq_refl) as Hloop.
    by rewrite append_nil_l in Hloop.
Qed.

(** The theorem on a failed and on a successful result of the sample. *)
Lemma exactly_one_latency_slot_witness :
  slots_of_point (point (H := sample_lib) (ok_at 2000000000 200) (failed_at 3000000000 500))
  = Some ("1", "2", NaN)
  ∧ slots_of_point (point (H := sample_lib) (ok_at 2000000000 200) (ok_at 1000000000 200))
    = Some ("-1", NaN, "1.5").
Proof.
  split.
  - destruct (exactly_one_latency_slot (H := sample_lib)
                (ok_at 2000000000 200) (failed_at 3000000000 500))
      as ((err & ok & Hslots & _ & Hfail & _) & _); [done|done|done|].
    destruct Hfail as [-> ->]; [done|]. exact Hslots.
  - destruct (exactly_one_latency_slot (H := sample_lib)
                (ok_at 2000000000 200) (ok_at 1000000000 200))
      as ((err & ok & Hslots & Hok & _) & _); [done|done|done|].
    destruct Hok as [-> ->]; [done|]. exact Hslots.
Defined.

(** ** The document *)

(** X5. [ReportPlot] reads no index out of range, and it returns a
    document for the empty collection only: for every other collection the
    row template fails at [.Request], a field [Result] does not have, and
    [ReportPlot] returns that error and no bytes. *)
Theorem ReportPlot_document_only_for_no_results `{GoLib} (r : Results) :
  is_Some (ReportPlot r)
  ∧ (r = [] → ∃ doc, ReportPlot r = Some (doc, None) ∧ doc ≠ EmptyString)
  ∧ (r ≠ [] → ReportPlot r = Some (EmptyString, Some (cant_evaluate "Request")))
  ∧ (∀ doc, ReportPlot r = Some (doc, None) → r = []).
Proof.
  split; [apply ReportPlot_no_panic|].
  destruct r as [|x rest].
  - split_and!; try done. intros _. eexists. split; [vm_compute; reflexivity|done].
  - rewrite ReportPlot_fails_on_any_record. split_and!; try done.
Qed.

(** ** Shifting the timestamps *)

Lemma point_later `{GoLib} (c : Z) (r0 ri : Result) :
  point (later c r0) (later c ri) = point r0 ri.
Proof.
  unfold point, elapsed, millis, later, Time_Sub. simpl.
  by replace (Timestamp ri + c - (Timestamp r0 + c))%Z
    with (Timestamp ri - Timestamp r0)%Z by lia.
Qed.

(** X6. The series depends on the timestamps through their differences
    only: moving every timestamp of a collection by the same amount leaves
    the series as it is. *)
Theorem plot_series_of_later `{GoLib} (c : Z) (r : Results) :
  plot_series (later c <$> r) = plot_series r.
Proof.
  destruct r as [|r0 rest]; [done|].
  assert (point (later c r0) <$> (later c <$> r0 :: rest) = point r0 <$> r0 :: rest)
    as Hpoints.
  { rewrite <- list_fmap_compose. apply list_fmap_ext.
    intros i x _. apply point_later. }
  pose proof (plot_loop_spec r0 rest 0 (length (r0 :: rest)) EmptyString eq_refl) as Hr.
  pose proof (plot_loop_spec (later c r0) (later c <$> rest) 0
                (length (later c <$> r0 :: rest)) EmptyString eq_refl) as Hl.
  change (drop 0 ?l) with l in Hr, Hl.
  change (later c r0 :: (later c <$> rest)) with (later c <$> r0 :: rest) in Hl.
  rewrite Hpoints in Hl.
  unfold plot_series. by rewrite Hr, Hl.
Qed.

(** ** Reading the series back *)

Lemma plot_series_spec `{GoLib} (r0 : Result) (rest : Results) :
  ∃ series, plot_series (r0 :: rest)%list = Some series
            ∧ series +:+ "," = flat (point r0 <$> (r0 :: rest)%list).
Proof.
  pose proof (plot_loop_spec r0 rest 0 (length (r0 :: rest)) EmptyString eq_refl) as Hloop.
  rewrite append_nil_l in Hloop. change (drop 0 (r0 :: rest)) with (r0 :: rest) in Hloop.
  destruct (flat_ends_with_comma (point r0 <$> (r0 :: rest))) as [body Hbody].
  - done.
  - intros p Hp. apply list_elem_of_fmap in Hp as (ri & -> & _).
    apply point_ends_with_comma.
  - exists body. split; [|done].
    unfold plot_series. rewrite Hloop. cbv beta iota delta [mbind option_bind].
    rewrite Hbody at 1.
    replace (0 <? String.length (body +:+ ","))%nat with true.
    + f_equal. rewrite Hbody. apply Truncate_last.
    + symmetry. apply Nat.ltb_lt. rewrite length_append. simpl. lia.
Qed.

Lemma split_on_cons sep (s : string) : ∃ (first : string) (others : list string), split_on sep s = cons first others.
Proof.
  destruct s as [|c s]; simpl; [by eexists _, _|].
  case_decide; [by eexists _, _|].
  destruct (split_on sep s); by eexists _, _.
Qed.

Lemma split_on_snoc sep (s : string) :
  split_on sep (s +:+ String sep EmptyString) = (split_on sep s ++ [EmptyString])%list.
Proof.
  induction s as [|c s IH].
  - rewrite append_nil_l. simpl. by case_decide.
  - rewrite append_cons. simpl. case_decide; [by rewrite IH|].
    rewrite IH. by destruct (split_on_cons sep s) as (first & others & ->).
Qed.

(** The three fields a point leaves between the commas. *)
Lemma point_fields `{GoLib} (r0 ri : Result) (rest : string) :
  has_char ","%char (FormatFloat32 (elapsed r0 ri)) = false →
  has_char ","%char (FormatFloat32 (millis ri)) = false →
  split_on ","%char (point r0 ri +:+ rest)
  = (("[" +:+ (triple_of r0 ri).1.1) :: (triple_of r0 ri).1.2
     :: ((triple_of r0 ri).2 +:+ "]") :: split_on ","%char rest)%list.
Proof.
  intros Hx Hlat. unfold point, triple_of. cbv zeta. simpl.
  case_decide.
  - rewrite !append_assoc.
    change ("[" +:+ FormatFloat32 (elapsed r0 ri) +:+ "," +:+ "NaN,"
            +:+ FormatFloat32 (millis ri) +:+ "]," +:+ rest)
      with (("[" +:+ FormatFloat32 (elapsed r0 ri))
            +:+ String ","%char (NaN +:+ String ","%char
                  (FormatFloat32 (millis ri) +:+ "]," +:+ rest))).
    rewrite !split_on_append by (by rewrite ?has_char_append, ?Hx).
    replace (FormatFloat32 (millis ri) +:+ "]," +:+ rest)
      with ((FormatFloat32 (millis ri) +:+ "]") +:+ String ","%char rest)
      by (by rewrite append_assoc).
    by rewrite split_on_append by (by rewrite has_char_append, Hlat).
  - rewrite !append_assoc.
    change ("[" +:+ FormatFloat32 (elapsed r0 ri) +:+ ","
            +:+ FormatFloat32 (millis ri) +:+ ",NaN]," +:+ rest)
      with (("[" +:+ FormatFloat32 (elapsed r0 ri))
            +:+ String ","%char (FormatFloat32 (millis ri) +:+ String ","%char
                  ((NaN +:+ "]") +:+ String ","%char rest))).
    by rewrite !split_on_append by (by rewrite ?has_char_append, ?Hx).
Qed.

Lemma triples_of_points `{GoLib} (r0 : Result) (r : Results) :
  Forall (λ ri, has_char ","%char (FormatFloat32 (elapsed r0 ri)) = false
                ∧ has_char ","%char (FormatFloat32 (millis ri)) = false) r →
  ∃ fields, split_on ","%char (flat (point r0 <$> r)) = (fields ++ [EmptyString])%list
            ∧ triples fields = Some (triple_of r0 <$> r).
Proof.
  induction 1 as [|ri r [Hx Hlat] _ (fields & Hsplit & Htriples)].
  - by exists [].
  - exists ((("[" +:+ (triple_of r0 ri).1.1) :: (triple_of r0 ri).1.2
             :: ((triple_of r0 ri).2 +:+ "]") :: fields)%list).
    split.
    + rewrite fmap_cons. change (flat (?p :: ?l)%list) with (p +:+ flat l).
      by rewrite point_fields, Hsplit.
    + change (triples (?a :: ?e :: ?c :: ?l)%list)
        with (unopen a ≫= λ x, unbracket c ≫= λ ok, triples l ≫= λ rest,
              Some ((x, e, ok) :: rest)%list).
      rewrite unbracket_append, Htriples, fmap_cons.
      destruct (triple_of r0 ri) as [[x e] ok]. simpl.
      change ("[" +:+ x) with (String "["%char x). simpl.
      by rewrite append_nil_l.
Qed.

(** X7. Reading the series back gives, for each record in order, the
    three values [ReportPlot] printed for it: the seconds since the first
    record, then the latency in the slot of its outcome and the marker
    [NaN] in the other. The numbers are taken to be printed without a
    comma; the series of no records reads back as no triples. *)
Theorem series_round_trip `{GoLib} (r0 : Result) (rest : Results) :
  Forall (λ ri, has_char ","%char (FormatFloat32 (elapsed r0 ri)) = false
                ∧ has_char ","%char (FormatFloat32 (millis ri)) = false)
         (r0 :: rest)%list →
  (∃ series, plot_series (r0 :: rest)%list = Some series
             ∧ triples_of_series series = Some (triple_of r0 <$> (r0 :: rest)%list))
  ∧ (plot_series [] ≫= triples_of_series) = Some [].
Proof.
  intros Hfree. split; [|done].
  destruct (plot_series_spec r0 rest) as (series & Hseries & Hflat).
  exists series. split; [done|].
  destruct (triples_of_points r0 (r0 :: rest) Hfree) as (fields & Hsplit & Htriples).
  rewrite <- Hflat in Hsplit.
  change (series +:+ ",") with (series +:+ String ","%char EmptyString) in Hsplit.
  rewrite split_on_snoc in Hsplit. apply (inj (λ l, l ++ [EmptyString])%list) in Hsplit.
  unfold triples_of_series. case_decide as Hempty; [|by rewrite Hsplit].
  rewrite Hempty in Hsplit. simpl in Hsplit. simplify_eq.
Qed.

(** The theorem on the three sample results. *)
Lemma series_round_trip_witness :
  plot_series (H := sample_lib) sample_results
  = Some "[0,NaN,1.5],[1,2,NaN],[-1,NaN,1.5]"
  ∧ triples_of_series "[0,NaN,1.5],[1,2,NaN],[-1,NaN,1.5]"
    = Some [("0", NaN, "1.5"); ("1", "2", NaN); ("-1", NaN, "1.5")].
Proof.
  split; [reflexivity|].
  destruct (series_round_trip (H := sample_lib)
              (ok_at 2000000000 200)
              [failed_at 3000000000 500; ok_at 1000000000 200])
    as ((series & Hseries & Htriples) & _).
  { repeat (constructor; [split; vm_compute; reflexivity|]). constructor. }
  assert (plot_series (H := sample_lib) sample_results
          = Some "[0,NaN,1.5],[1,2,NaN],[-1,NaN,1.5]") as Hsample by reflexivity.
  unfold sample_results in Hsample. rewrite Hsample in Hseries.
  injection Hseries as <-. exact Htriples.
Defined.

(** ** The order of the histogram *)

Lemma append_sep_inj (c : ascii) (a b x y : string) :
  has_char c a = false → has_char c b = false →
  a +:+ String c x = b +:+ String c y → a = b.
Proof.
  intros Ha Hb Heq. apply (f_equal (split_on c)) in Heq.
  rewrite !split_on_append in Heq by done. by simplify_eq.
Qed.

(** X9. When the histogram holds two different status codes, written
    without a colon as the decimal form of a number is, the order of the
    [range] shows: there are two orders of the same map for which
    [ReportText] writes different text to its tab writer, whatever the
    library prints. *)
Theorem ReportText_two_codes `{GoLib} (m : Metrics) (k1 k2 : string) (c1 c2 : Z) :
  StatusCodes m !! k1 = Some c1 →
  StatusCodes m !! k2 = Some c2 →
  k1 ≠ k2 →
  has_char ":"%char k1 = false →
  has_char ":"%char k2 = false →
  ∃ kvs1 kvs2,
    map_range (StatusCodes m) kvs1
    ∧ map_range (StatusCodes m) kvs2
    ∧ text_written kvs1 m ≠ text_written kvs2 m.
Proof.
  intros Hk1 Hk2 Hne Hc1 Hc2.
  set (others := map_to_list (delete k2 (delete k1 (StatusCodes m)))).
  assert (((k1, c1) :: (k2, c2) :: others)%list ≡ₚ map_to_list (StatusCodes m)) as Hperm.
  { rewrite <- (map_to_list_delete (StatusCodes m) k1 c1 Hk1).
    apply Permutation_skip. apply map_to_list_delete.
    by rewrite lookup_delete_ne. }
  exists ((k1, c1) :: (k2, c2) :: others)%list, ((k2, c2) :: (k1, c1) :: others)%list.
  split_and!.
  - exact Hperm.
  - unfold map_range. rewrite <- Hperm. apply Permutation_swap.
  - unfold text_written. intros Heq.
    repeat match type of Heq with
           | ?a +:+ _ = ?a +:+ _ => apply (inj (String.append a)) in Heq
           end.
    simpl in Heq. rewrite !append_assoc in Heq.
    change (":" +:+ ?x) with (String ":"%char x) in Heq.
    by apply append_sep_inj in Heq.
Qed.

(** The theorem on the results with the status codes 200 and 500. *)
Lemma ReportText_two_codes_witness :
  StatusCodes (NewMetrics two_codes) !! "200" = Some 1%Z
  ∧ StatusCodes (NewMetrics two_codes) !! "500" = Some 1%Z
  ∧ ∃ kvs1 kvs2,
      text_written (H := sample_lib) kvs1 (NewMetrics two_codes)
      ≠ text_written (H := sample_lib) kvs2 (NewMetrics two_codes).
Proof.
  split; [reflexivity|]. split; [reflexivity|].
  destruct (ReportText_two_codes (H := sample_lib) (NewMetrics two_codes)
              "200" "500" 1 1) as (kvs1 & kvs2 & _ & _ & Hdiff); try done.
  by exists kvs1, kvs2.
Defined.

End ReporterProofs.

(** * Properties of the sorting methods *)

Module SortingProofs.
Import Reporters Sorting.

Lemma index_Some (r : Results) (i : Z) (x : Result) :
  index r i = Some x ↔ (0 ≤ i)%Z ∧ r !! Z.to_nat i = Some x.
Proof.
  unfold index. destruct (Z.ltb_spec i 0) as [Hneg|Hpos].
  - split; [done|]. intros [? _]. lia.
  - split; [by split|]. by intros [_ ?].
Qed.

Lemma index_is_Some (r : Results) (i : Z) :
  is_Some (index r i) ↔ (0 ≤ i < Len r)%Z.
Proof.
  unfold Len. split.
  - intros [x Hx]. apply index_Some in Hx as [Hi Hx].
    apply lookup_lt_Some in Hx. lia.
  - intros [Hlo Hhi]. destruct (lookup_lt_is_Some_2 r (Z.to_nat i)) as [x Hx]; [lia|].
    exists x. by apply index_Some.
Qed.

Lemma insert_one_perm {A} (l : list A) (j : nat) (a y : A) :
  l !! j = Some y → y :: <[j:=a]> l ≡ₚ a :: l.
Proof.
  intros Hj. rewrite <- (take_drop_middle l j y Hj) at 2.
  rewrite insert_take_drop by (eapply lookup_lt_Some; eauto).
  solve_Permutation.
Qed.

Lemma insert_swap_perm {A} (l : list A) (i j : nat) (x y : A) :
  l !! i = Some x → l !! j = Some y → <[j:=x]> (<[i:=y]> l) ≡ₚ l.
Proof.
  revert i j. induction l as [|a l IH]; intros [|i] [|j] Hi Hj; simplify_eq/=; try done.
  - by apply insert_one_perm.
  - by apply insert_one_perm.
  - by rewrite IH.
Qed.

Lemma index_ptr_Some (r : list (option Result)) (i : Z) (p : option Result) :
  index_ptr r i = Some p ↔ (0 ≤ i)%Z ∧ r !! Z.to_nat i = Some p.
Proof.
  unfold index_ptr. destruct (Z.ltb_spec i 0) as [Hneg|Hpos].
  - split; [done|]. intros [? _]. lia.
  - split; [by split|]. by intros [_ ?].
Qed.

Lemma index_ptr_is_Some (r : list (option Result)) (i : Z) :
  is_Some (index_ptr r i) ↔ (0 ≤ i < Len_ptr r)%Z.
Proof.
  unfold Len_ptr. split.
  - intros [x Hx]. apply index_ptr_Some in Hx as [Hi Hx].
    apply lookup_lt_Some in Hx. lia.
  - intros [Hlo Hhi]. destruct (lookup_lt_is_Some_2 r (Z.to_nat i)) as [x Hx]; [lia|].
    exists x. by apply index_ptr_Some.
Qed.

(** A slice without nil indexes as the list of its results. *)
Lemma index_ptr_fmap (r : Results) (i : Z) :
  index_ptr (Some <$> r) i = Some <$> index r i.
Proof.
  unfold index_ptr, index. destruct (i <? 0)%Z; [done|].
  by rewrite list_lookup_fmap.
Qed.

(** X10. When [Less] and [Swap] panic. On a slice of pointers [Swap]
    panics exactly when one of its two indices is negative or not below
    [Len]: it copies pointers and follows none. [Less] panics exactly when
    an index is out of range or one of the two elements is nil; so with
    both indices in range it answers exactly when neither element is nil.
    On a slice without nil the two methods are the ones over the list of
    its results, which therefore answer and return exactly for indices in
    range; on an empty slice both panic. *)
Theorem Less_Swap_in_range (r : Results) (i j : Z) :
  (is_Some (Less r i j) ↔ (0 ≤ i < Len r)%Z ∧ (0 ≤ j < Len r)%Z)
  ∧ (is_Some (Swap r i j) ↔ (0 ≤ i < Len r)%Z ∧ (0 ≤ j < Len r)%Z)
  ∧ (Len r = 0%Z → Less r i j = None ∧ Swap r i j = None)
  ∧ Less_ptr (Some <$> r) i j = Less r i j
  ∧ Swap_ptr (Some <$> r) i j = (fmap Some : Results → list (option Result)) <$> Swap r i j
  ∧ (∀ ps : list (option Result),
       (is_Some (Swap_ptr ps i j) ↔ (0 ≤ i < Len_ptr ps)%Z ∧ (0 ≤ j < Len_ptr ps)%Z)
       ∧ (is_Some (Less_ptr ps i j) ↔
            ∃ x y, index_ptr ps i = Some (Some x) ∧ index_ptr ps j = Some (Some y))
       ∧ (index_ptr ps i = Some None ∨ index_ptr ps j = Some None →
            Less_ptr ps i j = None)
       ∧ (Len_ptr ps = 0%Z → Less_ptr ps i j = None ∧ Swap_ptr ps i j = None)).
Proof.
  split_and!.
  - rewrite <- !index_is_Some. unfold Less.
    destruct (index r i) as [x|], (index r j) as [y|]; simpl; split;
      try (intros [Ha Hb]); try done;
      first [by apply is_Some_None in Ha|by apply is_Some_None in Hb].
  - rewrite <- !index_is_Some. unfold Swap.
    destruct (index r i) as [x|], (index r j) as [y|]; simpl; split;
      try (intros [Ha Hb]); try done;
      first [by apply is_Some_None in Ha|by apply is_Some_None in Hb].
  - intros Hlen.
    assert (∀ k, index r k = None) as Hnone.
    { intros k. apply eq_None_not_Some. rewrite index_is_Some. lia. }
    unfold Less, Swap. by rewrite !Hnone.
  - unfold Less_ptr, Less. rewrite !index_ptr_fmap.
    by destruct (index r i) as [x|], (index r j) as [y|].
  - unfold Swap_ptr, Swap, store. rewrite !index_ptr_fmap.
    destruct (index r j) as [y|]; [|done]. destruct (index r i) as [x|]; [|done].
    simpl. f_equal. by rewrite !list_fmap_insert.
  - intros ps. split_and!.
    + rewrite <- !index_ptr_is_Some. unfold Swap_ptr.
      destruct (index_ptr ps i) as [p|], (index_ptr ps j) as [q|]; simpl; split;
        try (intros [Ha Hb]); try done;
        first [by apply is_Some_None in Ha|by apply is_Some_None in Hb].
    + unfold Less_ptr.
      destruct (index_ptr ps i) as [[x|]|], (index_ptr ps j) as [[y|]|]; simpl; split;
        try (intros (x' & y' & Ha & Hb)); try (intros [b Hb]); try done.
      by exists x, y.
    + unfold Less_ptr.
      intros [Hnil|Hnil]; rewrite Hnil; simpl; [done|].
      by destruct (index_ptr ps i) as [[x|]|].
    + intros Hlen.
      assert (∀ k, index_ptr ps k = None) as Hnone.
      { intros k. apply eq_None_not_Some. rewrite index_ptr_is_Some. lia. }
      unfold Less_ptr, Swap_ptr. by rewrite !Hnone.
Qed.

(** A slice with a nil pointer: [Less] panics on it with both indices in
    range, [Swap] does not. *)
Example Less_panics_on_nil :
  Less_ptr [None; Some (ok_at 1000000000 200)] 0 1 = None
  ∧ Swap_ptr [None; Some (ok_at 1000000000 200)] 0 1
    = Some [Some (ok_at 1000000000 200); None].
Proof. by split. Qed.

Lemma Swap_Some (r r' : Results) (i j : Z) :
  Swap r i j = Some r' →
  ∃ x y, (0 ≤ i)%Z ∧ (0 ≤ j)%Z
         ∧ r !! Z.to_nat i = Some x ∧ r !! Z.to_nat j = Some y
         ∧ r' = <[Z.to_nat j:=x]> (<[Z.to_nat i:=y]> r).
Proof.
  unfold Swap, store. intros Hswap.
  destruct (index r j) as [y|] eqn:Hj; [|done].
  destruct (index r i) as [x|] eqn:Hi; [|done].
  simpl in Hswap. simplify_eq.
  apply index_Some in Hi as [? ?]. apply index_Some in Hj as [? ?].
  by exists x, y.
Qed.

Lemma Swap_index (r r' : Results) (i j : Z) :
  Swap r i j = Some r' →
  index r' i = index r j ∧ index r' j = index r i
  ∧ ∀ k, k ≠ i → k ≠ j → index r' k = index r k.
Proof.
  intros (x & y & Hi0 & Hj0 & Hi & Hj & ->)%Swap_Some.
  assert (Z.to_nat i < length r) by (eapply lookup_lt_Some; eauto).
  assert (Z.to_nat j < length r) by (eapply lookup_lt_Some; eauto).
  assert (index r i = Some x) as Hxi by (by apply index_Some).
  assert (index r j = Some y) as Hyj by (by apply index_Some).
  split_and!.
  - rewrite Hyj. apply index_Some. split; [done|].
    destruct (decide (Z.to_nat j = Z.to_nat i)) as [Heq|Hne].
    + rewrite Heq in *. rewrite list_lookup_insert_eq by (by rewrite length_insert).
      congruence.
    + rewrite list_lookup_insert_ne by done. by rewrite list_lookup_insert_eq.
  - rewrite Hxi. apply index_Some. split; [done|].
    by rewrite list_lookup_insert_eq by (by rewrite length_insert).
  - intros k Hki Hkj. unfold index. destruct (k <? 0)%Z eqn:Hk; [done|].
    apply Z.ltb_ge in Hk.
    rewrite !list_lookup_insert_ne by lia. done.
Qed.

(** X11. [Swap] exchanges the two elements and nothing else: the slice
    keeps its length and its elements, the element at [i] is the one that
    was at [j] and conversely, and every other index holds what it
    held. *)
Theorem Swap_exchanges (r r' : Results) (i j : Z) :
  Swap r i j = Some r' →
  Len r' = Len r
  ∧ r' ≡ₚ r
  ∧ index r' i = index r j
  ∧ index r' j = index r i
  ∧ ∀ k, k ≠ i → k ≠ j → index r' k = index r k.
Proof.
  intros Hswap. destruct (Swap_index r r' i j Hswap) as (Hi & Hj & Hk).
  apply Swap_Some in Hswap as (x & y & _ & _ & Hx & Hy & ->).
  split_and!; try done.
  - unfold Len. by rewrite !length_insert.
  - by apply insert_swap_perm.
Qed.

(** The theorem on the first and the last of the three sample results. *)
Lemma Swap_exchanges_witness :
  Swap sample_results 0 2
  = Some [ok_at 1000000000 200; failed_at 3000000000 500; ok_at 2000000000 200]
  ∧ [ok_at 1000000000 200; failed_at 3000000000 500; ok_at 2000000000 200]
    ≡ₚ sample_results.
Proof.
  split; [reflexivity|].
  by destruct (Swap_exchanges sample_results _ 0 2 eq_refl) as (_ & Hperm & _).
Defined.

(** X12. Swapping the same two indices again gives the slice back, and the
    order of the two indices does not matter. *)
Theorem Swap_twice (r r' : Results) (i j : Z) :
  Swap r i j = Some r' →
  Swap r' i j = Some r ∧ Swap r j i = Some r'.
Proof.
  intros Hswap. destruct (Swap_index r r' i j Hswap) as (Hi & Hj & Hk).
  apply Swap_Some in Hswap as (x & y & Hi0 & Hj0 & Hx & Hy & ->).
  assert (Z.to_nat i < length r) by (eapply lookup_lt_Some; eauto).
  assert (Z.to_nat j < length r) by (eapply lookup_lt_Some; eauto).
  assert (index r i = Some x) as Hxi by (by apply index_Some).
  assert (index r j = Some y) as Hyj by (by apply index_Some).
  split.
  - unfold Swap. rewrite Hi, Hj, Hxi, Hyj. simpl. f_equal. unfold store.
    apply list_eq. intros k.
    rewrite !list_lookup_insert, !length_insert.
    repeat case_decide; try done; try lia; destruct_and?; simplify_eq; congruence.
  - unfold Swap. rewrite Hxi, Hyj. simpl. f_equal. unfold store.
    destruct (decide (Z.to_nat i = Z.to_nat j)) as [Heq|Hne].
    + rewrite Heq in *. rewrite !list_insert_insert_eq. congruence.
    + by apply list_insert_insert_ne.
Qed.

(** The theorem on the first and the last of the three sample results. *)
Lemma Swap_twice_witness :
  Swap sample_results 0 2
  = Some [ok_at 1000000000 200; failed_at 3000000000 500; ok_at 2000000000 200]
  ∧ Swap [ok_at 1000000000 200; failed_at 3000000000 500; ok_at 2000000000 200] 0 2
    = Some sample_results.
Proof.
  split; [reflexivity|].
  by destruct (Swap_twice sample_results _ 0 2 eq_refl) as (Hback & _).
Defined.

(** X13. On the indices of a slice [Less] is a strict weak order: no
    element is less than itself, two elements are never less than each
    other, less is transitive, and so is being neither less nor greater
    (having the same timestamp). *)
Theorem Less_strict_weak_order (r : Results) (i j k : Z) :
  Less r i i ≠ Some true
  ∧ (Less r i j = Some true → Less r j i = Some false)
  ∧ (Less r i j = Some true → Less r j k = Some true → Less r i k = Some true)
  ∧ (Less r i j = Some false → Less r j i = Some false →
     Less r j k = Some false → Less r k j = Some false →
     Less r i k = Some false ∧ Less r k i = Some false)
  ∧ (Less r i j = Some false → Less r j i = Some false →
     ∃ x y, index r i = Some x ∧ index r j = Some y ∧ Timestamp x = Timestamp y).
Proof.
  unfold Less, Before.
  destruct (index r i) as [x|], (index r j) as [y|], (index r k) as [z|];
    simpl; split_and!; try done; intros; simplify_eq;
    repeat match goal with
           | H : (_ <? _)%Z = true |- _ => apply Z.ltb_lt in H
           | H : (_ <? _)%Z = false |- _ => apply Z.ltb_ge in H
           end;
    try lia;
    try (f_equal; first [apply Z.ltb_lt|apply Z.ltb_ge]; lia);
    try (split; f_equal; apply Z.ltb_ge; lia);
    try (eexists _, _; split_and!; [done|done|lia]);
    by rewrite Z.ltb_irrefl.
Qed.

(** X14. After [Swap] the comparison of the two indices is the comparison
    the other way round before it. *)
Theorem Less_after_Swap (r r' : Results) (i j : Z) :
  Swap r i j = Some r' →
  Less r' i j = Less r j i ∧ Less r' j i = Less r i j.
Proof.
  intros Hswap. destruct (Swap_index r r' i j Hswap) as (Hi & Hj & _).
  unfold Less. by rewrite Hi, Hj.
Qed.

(** The theorem on the first and the last of the three sample results. *)
Lemma Less_after_Swap_witness :
  Less sample_results 2 0 = Some true
  ∧ Less [ok_at 1000000000 200; failed_at 3000000000 500; ok_at 2000000000 200] 0 2
    = Some true.
Proof.
  split; [reflexivity|].
  destruct (Less_after_Swap sample_results _ 0 2 eq_refl) as (Hless & _).
  exact Hless.
Defined.

(** ** Sorted results and the plot *)

Lemma sorted_lookup (r : Results) :
  sorted r ↔
  ∀ (a b : nat) x y, a < b → r !! a = Some x → r !! b = Some y →
                     (Timestamp x ≤ Timestamp y)%Z.
Proof.
  unfold sorted, Less, Before. split.
  - intros Hsorted a b x y Hab Ha Hb.
    specialize (Hsorted (Z.of_nat a) (Z.of_nat b) ltac:(lia)).
    assert (index r (Z.of_nat a) = Some x) as Hx
      by (apply index_Some; rewrite Nat2Z.id; split; [lia|done]).
    assert (index r (Z.of_nat b) = Some y) as Hy
      by (apply index_Some; rewrite Nat2Z.id; split; [lia|done]).
    rewrite Hx, Hy in Hsorted. simpl in Hsorted.
    destruct (Z.ltb_spec (Timestamp y) (Timestamp x)); [done|lia].
  - intros Hle i j Hij.
    destruct (index r j) as [y|] eqn:Hy; [|done].
    destruct (index r i) as [x|] eqn:Hx; [|done]. simpl.
    apply index_Some in Hx as [? Hx]. apply index_Some in Hy as [? Hy].
    specialize (Hle (Z.to_nat i) (Z.to_nat j) x y ltac:(lia) Hx Hy).
    intros [= Hlt]. apply Z.ltb_lt in Hlt. lia.
Qed.

Lemma Time_Sub_mono (t t' u : Z) :
  (t ≤ t')%Z → (Time_Sub t u ≤ Time_Sub t' u)%Z.
Proof.
  unfold Time_Sub, minDuration, maxDuration. cbv zeta. intros Hle.
  repeat match goal with
         | |- context [(?a <? ?b)%Z] => destruct (Z.ltb_spec a b)
         end; lia.
Qed.

Lemma Time_Sub_sign (t u : Z) : (Time_Sub t u < 0)%Z ↔ (t < u)%Z.
Proof.
  unfold Time_Sub, minDuration, maxDuration. cbv zeta.
  repeat match goal with
         | |- context [(?a <? ?b)%Z] => destruct (Z.ltb_spec a b)
         end; lia.
Qed.

(** X15. The duration [ReportPlot] turns into the x coordinate of a
    record is negative exactly when [Less] puts the record before the
    first one. *)
Theorem elapsed_negative_iff_Less (r : Results) (i : Z) (r0 ri : Result) :
  index r 0 = Some r0 →
  index r i = Some ri →
  (Less r i 0 = Some true ↔ (Time_Sub (Timestamp ri) (Timestamp r0) < 0)%Z).
Proof.
  intros H0 Hi. unfold Less, Before. rewrite H0, Hi. simpl.
  rewrite Time_Sub_sign. split.
  - intros [= Hlt]. by apply Z.ltb_lt.
  - intros Hlt. f_equal. by apply Z.ltb_lt.
Qed.

(** The theorem on the last sample result, which is older than the
    first. *)
Lemma elapsed_negative_iff_Less_witness :
  index sample_results 0 = Some (ok_at 2000000000 200)
  ∧ index sample_results 2 = Some (ok_at 1000000000 200)
  ∧ Less sample_results 2 0 = Some true
  ∧ (Time_Sub 1000000000 2000000000 < 0)%Z.
Proof.
  split; [reflexivity|]. split; [reflexivity|]. split; [reflexivity|].
  by apply (elapsed_negative_iff_Less sample_results 2
              (ok_at 2000000000 200) (ok_at 1000000000 200) eq_refl eq_refl).
Defined.

(** X16. In a slice sorted by these methods the durations from the first
    record, which [ReportPlot] turns into the x coordinates, are never
    negative and never decrease along the slice. *)
Theorem sorted_elapsed_increases (r : Results) (i j : Z) (r0 ri rj : Result) :
  sorted r →
  index r 0 = Some r0 →
  index r i = Some ri →
  index r j = Some rj →
  (i ≤ j)%Z →
  (0 ≤ Time_Sub (Timestamp ri) (Timestamp r0)
   ≤ Time_Sub (Timestamp rj) (Timestamp r0))%Z.
Proof.
  intros Hsorted H0 Hi Hj Hij.
  rewrite sorted_lookup in Hsorted.
  apply index_Some in H0 as [_ H0]. apply index_Some in Hi as [Hi0 Hi].
  apply index_Some in Hj as [Hj0 Hj].
  assert (Timestamp r0 ≤ Timestamp ri)%Z as Hfirst.
  { destruct (decide (i = 0%Z)) as [->|Hne]; [by simplify_eq|].
    apply (Hsorted (Z.to_nat 0) (Z.to_nat i)); [lia|done|done]. }
  assert (Timestamp ri ≤ Timestamp rj)%Z as Hnext.
  { destruct (decide (i = j)) as [->|Hne]; [by simplify_eq|].
    apply (Hsorted (Z.to_nat i) (Z.to_nat j)); [lia|done|done]. }
  split.
  - pose proof (Time_Sub_sign (Timestamp ri) (Timestamp r0)). lia.
  - by apply Time_Sub_mono.
Qed.

(** The theorem on two results one second apart. *)
Lemma sorted_elapsed_increases_witness :
  sorted one_code
  ∧ (0 ≤ Time_Sub 1000000000 1000000000 ≤ Time_Sub 2000000000 1000000000)%Z.
Proof.
  assert (sorted one_code) as Hsorted.
  { apply sorted_lookup. intros [|[|a]] [|[|b]] x y Hab Hx Hy; simplify_eq/=; lia. }
  split; [exact Hsorted|].
  by apply (sorted_elapsed_increases one_code 0 1
              (ok_at 1000000000 200) (ok_at 1000000000 200) (ok_at 2000000000 200)).
Defined.

End SortingProofs.
